(** * gocask: a Bitcask-style append-only key-value store

    Shallow embedding of [gocask.go] and the properties of its record
    format, keydir, merge, rotation and startup recovery.

    Conventions of the embedding:
    - a Go [string] is a Rocq [string]; a Go [[]byte] is a [list ascii]
      (one [ascii] per byte); [[]byte(s)] and [string(b)] are
      [list_ascii_of_string] and [string_of_list_ascii];
    - a Go map is a [gmap]; where Go ranges over a map (in an unspecified
      order) the model ranges over [map_to_list], and no theorem depends on
      that order;
    - offsets and sizes ([int64]) are [Z];
    - the directory is a finite map from entry names to file contents. *)

From Stdlib Require Import ZArith Lia Ascii String.
From stdpp Require Import gmap strings list fin_maps sorting pretty.

Local Open Scope Z_scope.

Abbreviation bytes := (list ascii).

(** ** Bytes and fixed-width big-endian integers *)

Module Bin.

Definition byte_of_Z (z : Z) : ascii := ascii_of_N (Z.to_N (z mod 256)).
Definition Z_of_byte (a : ascii) : Z := Z.of_N (N_of_ascii a).

(** [binary.Write(w, binary.BigEndian, x)] for an unsigned integer of
    [n] bytes: the [n] low-order bytes of [z], most significant first
    (the conversion [uint32(len(key))] truncates the same way). *)
Fixpoint be_encode (n : nat) (z : Z) : bytes :=
  match n with
  | O => []
  | S n' => byte_of_Z (z / 256 ^ Z.of_nat n') :: be_encode n' z
  end.

Definition be_decode (bs : bytes) : Z :=
  fold_left (λ acc b, acc * 256 + Z_of_byte b) bs 0.

Definition put_u32 (z : Z) : bytes := be_encode 4 z.
Definition put_u64 (z : Z) : bytes := be_encode 8 z.

(** [int64(x)] for an [x : uint64]. *)
Definition int64_of_u64 (z : Z) : Z :=
  if z <? 2 ^ 63 then z else z - 2 ^ 64.

(** [int64] addition, wrapping. *)
Definition wrap64 (z : Z) : Z := (z + 2 ^ 63) mod 2 ^ 64 - 2 ^ 63.

(** A sequential reader is the list of bytes not yet consumed. *)

(** [io.ReadFull(r, buf)] with [len(buf) = n]: the [n] bytes and the
    rest, or an error when fewer than [n] bytes remain. *)
Definition read_full (n : nat) (r : bytes) : option (bytes * bytes) :=
  if decide (n ≤ length r)%nat then Some (take n r, drop n r) else None.

(** [binary.Read(r, binary.BigEndian, &x)] for [x : uint32]. *)
Definition read_u32 (r : bytes) : option (Z * bytes) :=
  '(b, r') ← read_full 4 r; Some (be_decode b, r').

Definition read_u64 (r : bytes) : option (Z * bytes) :=
  '(b, r') ← read_full 8 r; Some (be_decode b, r').

End Bin.
Import Bin.

(** ** Records on disk *)

Definition flagNormal : ascii := "000"%char.
Definition flagTombstone : ascii := "001"%char.

Record FileOffset := mkFileOffset { FileID : string; Offset : Z }.

Global Instance FileOffset_eq_dec : EqDecision FileOffset.
Proof. solve_decision. Defined.

Definition len (s : string) : Z := Z.of_nat (String.length s).
Definition blen (b : bytes) : Z := Z.of_nat (length b).

(** The bytes that [writeEntry] hands to its writer. *)
Definition entry_bytes (key value : bytes) : bytes :=
  [flagNormal] ++ put_u32 (blen key) ++ put_u32 (blen value) ++ key ++ value.

(** The bytes that [writeTombstone] hands to its writer. *)
Definition tombstone_bytes (key : bytes) : bytes :=
  [flagTombstone] ++ put_u32 (blen key) ++ put_u32 0 ++ key.

(** [writeEntry(w, key, value)]: [w] is the pending content of the
    [bufio.Writer], [size] the global [activeFileSize]. Write errors are
    not looked at by the source. *)
Definition writeEntry (w : bytes) (size : Z) (key value : bytes) : bytes * Z :=
  (w ++ entry_bytes key value, wrap64 (size + (1 + 8 + blen key + blen value))).

(** [writeTombstone(w, key)]. *)
Definition writeTombstone (w : bytes) (size : Z) (key : bytes) : bytes * Z :=
  (w ++ tombstone_bytes key, wrap64 (size + (1 + 8 + blen key))).

(** ** Library functions used by the source *)

Module GoLib.

(** The UTF-8 encodings of the runes for which [unicode.IsSpace] holds:
    U+0009 to U+000D, U+0020, U+0085, U+00A0, U+1680, U+2000 to U+200A,
    U+2028, U+2029, U+202F, U+205F and U+3000. No other byte sequence
    decodes to one of them (an overlong form decodes to [RuneError]),
    and the first byte of each is no continuation byte, so a string
    starts (ends) with a white-space rune exactly when it starts (ends)
    with one of these sequences, in a forward as in a backward decoding. *)
Definition white_space : list bytes :=
  [ ["009"]; ["010"]; ["011"]; ["012"]; ["013"]; [" "];
    ["194"; "133"]; ["194"; "160"];
    ["225"; "154"; "128"];
    ["226"; "128"; "128"]; ["226"; "128"; "129"]; ["226"; "128"; "130"];
    ["226"; "128"; "131"]; ["226"; "128"; "132"]; ["226"; "128"; "133"];
    ["226"; "128"; "134"]; ["226"; "128"; "135"]; ["226"; "128"; "136"];
    ["226"; "128"; "137"]; ["226"; "128"; "138"];
    ["226"; "128"; "168"]; ["226"; "128"; "169"]; ["226"; "128"; "175"];
    ["226"; "129"; "159"];
    ["227"; "128"; "128"] ]%char.

Fixpoint starts_with (w l : bytes) : bool :=
  match w, l with
  | [], _ => true
  | a :: w', b :: l' => bool_decide (a = b) && starts_with w' l'
  | _ :: _, [] => false
  end.

(** The run of sequences of [seqs] at the head of [l] is dropped. Every
    turn drops at least one byte, so [length l] turns are enough. *)
Fixpoint drop_run (seqs : list bytes) (fuel : nat) (l : bytes) : bytes :=
  match fuel with
  | O => l
  | S fuel' =>
      match find (λ w, starts_with w l) seqs with
      | Some w => drop_run seqs fuel' (drop (length w) l)
      | None => l
      end
  end.

(** [strings.TrimSpace]: the white-space runes at the start are removed
    (decoding forwards), then those at the end of what is left (decoding
    backwards). *)
Definition trim_left (l : bytes) : bytes := drop_run white_space (length l) l.

Definition trim_right (l : bytes) : bytes :=
  rev (drop_run (@rev ascii <$> white_space) (length l) (rev l)).

Definition trim (l : bytes) : bytes := trim_right (trim_left l).

Definition TrimSpace (s : string) : string :=
  string_of_list_ascii (trim (list_ascii_of_string s)).

(** [strings.TrimSuffix]. *)
Definition has_suffix (suf s : string) : bool :=
  bool_decide (list_ascii_of_string suf `suffix_of` list_ascii_of_string s).

Definition has_prefix (pre s : string) : bool := String.prefix pre s.

Definition TrimSuffix (s suf : string) : string :=
  if has_suffix suf s
  then String.substring 0 (String.length s - String.length suf) s
  else s.

(** [sort.Slice(xs, less)]: the insertion sort that the library runs on
    slices of fewer than 12 elements, where every element moves left
    while it is strictly less than its left neighbour. The sorted
    prefix is kept reversed in [acc]. *)
Section sort.
Context {A : Type} (less : A → A → bool).

Fixpoint sift (x : A) (acc : list A) : list A :=
  match acc with
  | [] => [x]
  | y :: acc' => if less x y then y :: sift x acc' else x :: acc
  end.

Definition sort_slice (xs : list A) : list A :=
  rev (fold_left (λ acc x, sift x acc) xs []).
End sort.

(** The [%d] verb of [fmt.Sscanf]: white space other than a newline is
    skipped (a newline is an error, as is the absence of a digit), then
    an optional sign and a non-empty run of decimal digits are read; the
    value has to fit [int64]. The scanner of the library also takes
    underscores among the digits, which [strconv.ParseInt] then refuses:
    here the run of digits ends before an underscore, and neither the
    literal that follows [%d] in the one format of the source nor a
    first digit matches it. *)
Definition skip_blank (l : bytes) : bytes :=
  drop_run (filter (λ w, w ≠ ["010"%char]) white_space) (length l) l.

Fixpoint scan_digits (l : bytes) (acc : Z) (seen : bool)
  : option (Z * bytes) :=
  match l with
  | a :: l' =>
      match Ascii.is_nat a with
      | Some d => scan_digits l' (acc * 10 + Z.of_nat d) true
      | None => if seen then Some (acc, l) else None
      end
  | [] => if seen then Some (acc, []) else None
  end.

Definition scan_int (l : bytes) : option (Z * bytes) :=
  match skip_blank l with
  | "-"%char :: l' =>
      '(n, r) ← scan_digits l' 0 false;
      if - n <? - 2 ^ 63 then None else Some (- n, r)
  | "+"%char :: l' =>
      '(n, r) ← scan_digits l' 0 false;
      if 2 ^ 63 <=? n then None else Some (n, r)
  | l' =>
      '(n, r) ← scan_digits l' 0 false;
      if 2 ^ 63 <=? n then None else Some (n, r)
  end.

(** A literal of the format string has to be matched byte for byte. *)
Definition scan_lit (lit : string) (l : bytes) : option bytes :=
  let p := list_ascii_of_string lit in
  if bool_decide (p `prefix_of` l) then Some (drop (length p) l) else None.

End GoLib.
Import GoLib.

(** [extractTimestamp(filePath)]: [Sscanf(base, "data_%d.log", &ts)],
    and 0 when the scan reports an error. The names handled are bare
    directory entries, on which [filepath.Base] is the identity. *)
Definition extractTimestamp (filePath : string) : Z :=
  match
    r ← scan_lit "data_" (list_ascii_of_string filePath);
    '(ts, r) ← scan_int r;
    _ ← scan_lit ".log" r;
    Some ts
  with
  | Some ts => ts
  | None => 0
  end.

(** ** The directory *)

(** The working directory: entry name to file content. *)
Abbreviation dir := (gmap string bytes).

(** [filepath.Match] for a pattern [pre*suf] without separators. *)
Definition glob_match (pre suf name : string) : bool :=
  has_prefix pre name && has_suffix suf name
  && bool_decide (String.length pre + String.length suf ≤ String.length name)%nat.

(** [filepath.Glob(pre*suf)]: the entry names are read, sorted as
    strings, and those that match are kept. *)
Definition Glob (pre suf : string) (fs : dir) : list string :=
  filter (λ n, glob_match pre suf n = true)
         (merge_sort String.le (map_to_list fs).*1).

Definition active : string := "data.txt".
Definition lockName : string := "data.txt.lock".

(** Opening with [O_CREATE]: an absent file comes into being, empty. *)
Definition touch (name : string) (fs : dir) : dir :=
  if decide (is_Some (fs !! name)) then fs else <[name := []]> fs.

(** ** The store *)

(** The state of a run of [main]:
    - [files]: the directory;
    - [f_pos]: the offset of the handle [f] that [main] opened on
      [data.txt] with [O_APPEND] (a write through it appends and leaves
      the offset at the end of the file);
    - [w_on_f]: the writer [w] of [main] still wraps [f]; after a
      rotation it wraps the handle of the new [data.txt], while [main]
      keeps asking the old [f] for the offset;
    - [w_err]: the sticky error of the [bufio.Writer] [w];
    - [keyDir], [activeFileSize]: as in the source.
    The file that [w] appends to is always the one entered as
    [data.txt], an entry that every state reached from [open_store]
    has. *)
Record store := mkStore {
  files : dir;
  f_pos : Z;
  w_on_f : bool;
  w_err : bool;
  keyDir : gmap string FileOffset;
  activeFileSize : Z }.

(** What the operating system answers during one mutation: whether the
    [Seek] fails, and whether the writing fails; [Some n] is a failure
    before which [n] bytes of what [w] was given have reached the file
    (all of it when there are no more). *)
Record io := mkIo { seek_fails : bool; write_fails : option nat }.

Definition io_ok : io := mkIo false None.

Inductive error := ErrSeek | ErrNotExist | ErrCorrupt.

(** [w.Flush()] after [buf] has been handed to [w]. Nothing happens once
    the writer has an error. What [w] is given reaches the file in the
    order given, in one write or several (the buffer of [w] holds 4096
    bytes; a longer record is written in part before [Flush]), every
    write appending to [data.txt] and leaving the handle written through
    at the end of the file. A failing write leaves in the file what was
    written before it and is kept as the error of the writer; when it
    wrote nothing the file and the handle are as they were. Neither the
    result of [Flush] nor that of a write is looked at by the source. *)
Definition flush (write_fails : option nat) (buf : bytes) (st : store) : store :=
  if w_err st then st
  else
    match write_fails with
    | None =>
        let c := default [] (files st !! active) ++ buf in
        mkStore (<[active := c]> (files st))
                (if w_on_f st then blen c else f_pos st)
                (w_on_f st) false (keyDir st) (activeFileSize st)
    | Some n =>
        match take n buf with
        | [] =>
            mkStore (files st) (f_pos st) (w_on_f st) true (keyDir st)
                    (activeFileSize st)
        | part =>
            let c := default [] (files st !! active) ++ part in
            mkStore (<[active := c]> (files st))
                    (if w_on_f st then blen c else f_pos st)
                    (w_on_f st) true (keyDir st) (activeFileSize st)
        end
    end.

Definition set_size (n : Z) (st : store) : store :=
  mkStore (files st) (f_pos st) (w_on_f st) (w_err st) (keyDir st) n.

Definition set_keyDir (kd : gmap string FileOffset) (st : store) : store :=
  mkStore (files st) (f_pos st) (w_on_f st) (w_err st) kd (activeFileSize st).

(** The [PUT] case of [main]: [f.Seek(0, io.SeekCurrent)] (its error is
    dropped, the offset is 0 then), [writeEntry], [w.Flush()], and the
    keydir assignment. *)
Definition put (o : io) (key val : string) (st : store) : store :=
  let offset := if seek_fails o then 0 else f_pos st in
  let '(buf, size) :=
    writeEntry [] (activeFileSize st)
               (list_ascii_of_string key) (list_ascii_of_string val) in
  let st1 := flush (write_fails o) buf (set_size size st) in
  set_keyDir (<[key := mkFileOffset active offset]> (keyDir st1)) st1.

(** [Delete(key, f, w, keyDir)]. *)
Definition Delete (o : io) (key : string) (st : store) : store * option error :=
  if seek_fails o then (st, Some ErrSeek)
  else
    let offset := f_pos st in
    let '(buf, size) :=
      writeTombstone [] (activeFileSize st) (list_ascii_of_string key) in
    let st1 := flush (write_fails o) buf (set_size size st) in
    (set_keyDir (<[key := mkFileOffset active offset]> (keyDir st1)) st1, None).

(** ** Get *)

Inductive get_result :=
  | GetValue (v : string)
  | GetNotFound
  | GetDeleted
  | GetError (e : error).

(** [binary.Read] of a [uint32] whose error is dropped: the variable
    keeps 0 when fewer than 4 bytes remain, and what remained is
    consumed. *)
Definition read_u32_lax (r : bytes) : Z * bytes :=
  (if decide (4 ≤ length r)%nat then be_decode (take 4 r) else 0, drop 4 r).

(** [io.ReadFull] into a fresh zeroed buffer of [n] bytes, error dropped. *)
Definition read_full_lax (n : nat) (r : bytes) : bytes :=
  take n r ++ replicate (n - length r) "000"%char.

(** [f.Seek(off, io.SeekStart)] on a handle just opened: a negative
    offset is refused and the handle stays at 0. *)
Definition seek_start (off : Z) (c : bytes) : bytes :=
  if off <? 0 then c else drop (Z.to_nat off) c.

(** [flag := make([]byte, 1); f.Read(flag)], result dropped. *)
Definition read_flag (r : bytes) : ascii * bytes :=
  (default "000"%char (head r), drop 1 r).

(** [Get(key, keyDir)]: none of the results of [Seek], [Read],
    [binary.Read] and [ReadFull] is looked at. *)
Definition Get (key : string) (st : store) : get_result :=
  match keyDir st !! key with
  | None => GetNotFound
  | Some fo =>
      match files st !! FileID fo with
      | None => GetError ErrNotExist
      | Some c =>
          let '(flag, r1) := read_flag (seek_start (Offset fo) c) in
          if decide (flag = flagTombstone) then GetDeleted
          else
            let '(kLen, r2) := read_u32_lax r1 in
            let '(vLen, r3) := read_u32_lax r2 in
            let r4 := drop (Z.to_nat kLen) r3 in
            GetValue (string_of_list_ascii (read_full_lax (Z.to_nat vLen) r4))
      end
  end.

(** ** Startup recovery *)

(** The loop of [RebuildKeyDir] over one hint file: clean end of file
    before a key length ends it; a short key length or offset is an
    error; the result of [io.ReadFull(r, key)] is dropped. Every turn
    consumes at least 4 bytes, so [S (length r)] turns are enough. *)
Fixpoint hint_loop (fuel : nat) (logFile : string) (r : bytes)
    (kd : gmap string FileOffset) : option (gmap string FileOffset) :=
  match fuel with
  | O => None
  | S fuel' =>
      match r with
      | [] => Some kd
      | _ =>
          '(keyLen, r1) ← read_u32 r;
          let key := read_full_lax (Z.to_nat keyLen) r1 in
          let r2 := drop (Z.to_nat keyLen) r1 in
          '(off, r3) ← read_u64 r2;
          hint_loop fuel' logFile r3
            (<[string_of_list_ascii key :=
                 mkFileOffset logFile (int64_of_u64 off)]> kd)
      end
  end.

Definition companion (h : string) : string := TrimSuffix h ".hint" +:+ ".log".

Fixpoint hints_loop (fs : dir) (hints : list string)
    (kd : gmap string FileOffset) : option (gmap string FileOffset) :=
  match hints with
  | [] => Some kd
  | h :: hints' =>
      c ← fs !! h;
      kd' ← hint_loop (S (length c)) (companion h) c kd;
      hints_loop fs hints' kd'
  end.

(** The order in which [RebuildKeyDir] reads the hint files. *)
Definition hint_order (fs : dir) : list string :=
  sort_slice (λ a b, extractTimestamp a <? extractTimestamp b)
             (Glob "data_" ".hint" fs).

(** [RebuildKeyDir()]; [None] stands for the error return. *)
Definition RebuildKeyDir (fs : dir) : option (gmap string FileOffset) :=
  hints_loop fs (hint_order fs) ∅.

(** The prologue of [main]: [data.txt] is opened (created when absent)
    with [O_APPEND], which leaves the offset of [f] at 0, and the keydir
    is rebuilt. When recovery fails [main] goes on with a nil map, which
    panics at the first assignment: such runs have no state here. *)
Definition open_store (fs : dir) : option store :=
  kd ← RebuildKeyDir fs;
  Some (mkStore (touch active fs) 0 true false kd 0).

(** ** Merge *)

Record entry := mkEntry { value : bytes; tombstone : bool }.

(** The read loop of [mergeFiles] over one file, [r] being what the
    [bufio.Reader] has not consumed. A record whose trimmed key is
    already in [latest] is passed over ([Discard] of the value of a
    normal record, result dropped); a tombstone is entered without
    reading value bytes. Every turn consumes at least 9 bytes. *)
Fixpoint merge_loop (fuel : nat) (r : bytes) (latest : gmap string entry)
    : option (gmap string entry) :=
  match fuel with
  | O => None
  | S fuel' =>
      match r with
      | [] => Some latest
      | flag :: r0 =>
          '(keyLen, r1) ← read_u32 r0;
          '(valLen, r2) ← read_u32 r1;
          '(keyBuf, r3) ← read_full (Z.to_nat keyLen) r2;
          let keyStr := TrimSpace (string_of_list_ascii keyBuf) in
          if decide (is_Some (latest !! keyStr)) then
            merge_loop fuel'
              (if decide (flag = flagNormal ∧ 0 < valLen)
               then drop (Z.to_nat valLen) r3 else r3)
              latest
          else if decide (flag = flagTombstone) then
            merge_loop fuel' r3 (<[keyStr := mkEntry [] true]> latest)
          else
            '(valueBuf, r4) ← read_full (Z.to_nat valLen) r3;
            merge_loop fuel' r4 (<[keyStr := mkEntry valueBuf false]> latest)
      end
  end.

Fixpoint merge_files_loop (fs : dir) (paths : list string)
    (latest : gmap string entry) : option (gmap string entry) :=
  match paths with
  | [] => Some latest
  | p :: paths' =>
      c ← fs !! p;
      latest' ← merge_loop (S (length c)) c latest;
      merge_files_loop fs paths' latest'
  end.

(** The output loop of [mergeFiles]: [writeEntry] for every entry that is
    not a tombstone; [writeEntry] also adds to [activeFileSize]. *)
Definition compact (latest : gmap string entry) (size : Z) : bytes * Z :=
  foldl (λ '(w, size) '(k, e),
           if tombstone e then (w, size)
           else writeEntry w size (list_ascii_of_string k) (value e))
        ([], size) (map_to_list latest).

Definition compacted : string := "compacted_data.txt".

Definition newest_first (paths : list string) : list string :=
  sort_slice (λ a b, extractTimestamp a >? extractTimestamp b) paths.

(** [mergeFiles(sortedFiles, keyDir)]; the keydir is not used by it. *)
Definition mergeFiles (sortedFiles : list string) (st : store)
    : store * option error :=
  match merge_files_loop (files st) (newest_first sortedFiles) ∅ with
  | None => (st, Some ErrCorrupt)
  | Some latest =>
      let '(w, size) := compact latest (activeFileSize st) in
      (mkStore (<[compacted := w]> (files st)) (f_pos st) (w_on_f st)
               (w_err st) (keyDir st) size, None)
  end.

(** ** Rotation *)

(** Step 7 of [rotateFile]: the scan of the installed log. [off] is the
    offset of the handle (it may end beyond the end of the file after the
    last [Seek]). *)
Fixpoint scan_loop (fuel : nat) (off : Z) (r : bytes) (realOffsets : gmap string Z)
    : option (gmap string Z) :=
  match fuel with
  | O => None
  | S fuel' =>
      match r with
      | [] => Some realOffsets
      | flag :: r0 =>
          '(keyLen, r1) ← read_u32 r0;
          '(valLen, r2) ← read_u32 r1;
          '(keyBuf, r3) ← read_full (Z.to_nat keyLen) r2;
          let keyStr := string_of_list_ascii keyBuf in
          scan_loop fuel' (off + 1 + 4 + 4 + keyLen + valLen)
            (drop (Z.to_nat valLen) r3)
            (if decide (flag = flagNormal)
             then <[keyStr := off]> realOffsets else realOffsets)
      end
  end.

Definition hint_entry_bytes (key : string) (off : Z) : bytes :=
  put_u32 (len key) ++ list_ascii_of_string key ++ put_u64 off.

(** Step 8: what is written to the hint file. *)
Definition hint_bytes (realOffsets : gmap string Z) : bytes :=
  map_to_list realOffsets ≫= (λ '(key, off), hint_entry_bytes key off).

Definition log_name (now : Z) : string := "data_" +:+ pretty now +:+ ".log".
Definition hint_name (now : Z) : string := "data_" +:+ pretty now +:+ ".hint".

Definition remove_except (keep : string) (names : list string) (fs : dir) : dir :=
  foldl (λ fs old, if decide (old ≠ keep) then delete old fs else fs) fs names.

Definition set_files (fs : dir) (st : store) : store :=
  mkStore fs (f_pos st) (w_on_f st) (w_err st) (keyDir st) (activeFileSize st).

(** [rotateFile(oldW, keyDir)] at time [now] (seconds), in a directory
    that refuses nothing: [oldW] has nothing pending, the lock is granted
    (taking it creates the lock file), and opening, creating, renaming
    and removing a file fail only when the file is not there. The error
    returns of the source for a refused lock, [OpenFile], [Open] or
    [Create] are therefore not met. The writer returned replaces [w]:
    the old one when the first rename fails, else the new one, which
    wraps a handle of its own. *)
Definition rotateFile (now : Z) (st : store) : store * option error :=
  let fs0 := touch lockName (files st) in
  let newLog := log_name now in
  match fs0 !! active with
  | None => (set_files fs0 st, Some ErrNotExist)
  | Some c =>
      let fs2 := <[active := []]> (<[newLog := c]> (delete active fs0)) in
      let st2 := mkStore fs2 (f_pos st) false false (keyDir st) 0 in
      let logs := newest_first (Glob "data_" ".log" fs2) in
      match mergeFiles logs st2 with
      | (st3, Some e) => (st3, Some e)
      | (st3, None) =>
          match files st3 !! compacted with
          | None => (st3, Some ErrNotExist)
          | Some cc =>
              let fs4 := <[newLog := cc]> (delete compacted (files st3)) in
              match scan_loop (S (length cc)) 0 cc ∅ with
              | None => (set_files fs4 st3, Some ErrCorrupt)
              | Some realOffsets =>
                  let hintName := hint_name now in
                  let fs5 := <[hintName := hint_bytes realOffsets]> fs4 in
                  let fs6 := remove_except newLog logs fs5 in
                  let fs7 :=
                    remove_except hintName (Glob "data_" ".hint" fs6) fs6 in
                  match RebuildKeyDir fs7 with
                  | None => (set_files fs7 st3, Some ErrCorrupt)
                  | Some fresh =>
                      (set_keyDir fresh (set_files fs7 st3), None)
                  end
              end
          end
      end
  end.

(** ** The command loop of [main] *)

Inductive cmd := PUT (key val : string) | DEL (key : string) | GET (key : string).

Definition maxFileSize : Z := 100.

Definition exec (o : io) (c : cmd) (st : store) : store :=
  match c with
  | PUT key val => put o key val st
  | DEL key => (Delete o key st).1
  | GET _ => st
  end.

(** One turn of the loop: the command, then the size check. *)
Definition main_step (o : io) (now : Z) (c : cmd) (st : store) : store :=
  let st1 := exec o c st in
  if activeFileSize st1 >? maxFileSize then (rotateFile now st1).1 else st1.

(** A run: the commands with the time at which each is served. *)
Definition run (cs : list (Z * cmd)) (st : store) : store :=
  foldl (λ st '(now, c), main_step io_ok now c st) st cs.

(** * Statements of the specification, and sample inputs *)

(** The entries of a hint file in the order stored, read as
    [RebuildKeyDir] reads them. *)
Fixpoint hint_entries_loop (fuel : nat) (r : bytes) : option (list (string * Z)) :=
  match fuel with
  | O => None
  | S fuel' =>
      match r with
      | [] => Some []
      | _ =>
          '(keyLen, r1) ← read_u32 r;
          let key := read_full_lax (Z.to_nat keyLen) r1 in
          let r2 := drop (Z.to_nat keyLen) r1 in
          '(off, r3) ← read_u64 r2;
          es ← hint_entries_loop fuel' r3;
          Some ((string_of_list_ascii key, int64_of_u64 off) :: es)
      end
  end.

Definition hint_entries (c : bytes) : option (list (string * Z)) :=
  hint_entries_loop (S (length c)) c.

(** The keydir assignments of one hint file. *)
Definition bind_hints (logFile : string) (es : list (string * Z))
    (kd : gmap string FileOffset) : gmap string FileOffset :=
  foldl (λ kd '(key, off), <[key := mkFileOffset logFile off]> kd) kd es.

(** The writer [w] still wraps the handle [f], has no error, and [f]
    stands at the end of the active file: the state of a run at every
    turn after its first mutation and before its first rotation, and from
    the start when the active file was empty at [open]. *)
Definition synced (st : store) : Prop :=
  w_on_f st = true ∧ w_err st = false
  ∧ ∃ c, files st !! active = Some c ∧ f_pos st = blen c.

(** No turn of the run reaches the size check with more than
    [maxFileSize]: no rotation takes place. *)
Fixpoint calm (cs : list (Z * cmd)) (st : store) : Prop :=
  match cs with
  | [] => True
  | (_, c) :: cs' =>
      activeFileSize (exec io_ok c st) ≤ maxFileSize ∧ calm cs' (exec io_ok c st)
  end.

(** The keydir entry of [k] points at a tombstone flag of the active file. *)
Definition at_tombstone (k : string) (st : store) : Prop :=
  ∃ c off, files st !! active = Some c
           ∧ keyDir st !! k = Some (mkFileOffset active off)
           ∧ 0 ≤ off ∧ c !! Z.to_nat off = Some flagTombstone.

(** ** Records and logs, as the specification describes them *)

Inductive record :=
  | Normal (key : string) (val : bytes)
  | Tombstone (key : string).

Global Instance record_eq_dec : EqDecision record.
Proof. solve_decision. Defined.

Definition rkey (r : record) : string :=
  match r with Normal key _ => key | Tombstone key => key end.

(** [encode_put] and [encode_tombstone] of the specification. *)
Definition record_bytes (r : record) : bytes :=
  match r with
  | Normal key val => entry_bytes (list_ascii_of_string key) val
  | Tombstone key => tombstone_bytes (list_ascii_of_string key)
  end.

(** A data file: records stored one after the other. *)
Definition log_bytes (rs : list record) : bytes := rs ≫= record_bytes.

(** Key and value lengths fit an unsigned 32-bit integer. *)
Definition wf_record (r : record) : Prop :=
  len (rkey r) < 2 ^ 32
  ∧ match r with Normal _ val => blen val < 2 ^ 32 | Tombstone _ => True end.

(** [decode_record] of the specification: one complete record read from
    the front of [r], and what follows it. *)
Definition decode_record (r : bytes) : option (record * bytes) :=
  match r with
  | [] => None
  | flag :: r0 =>
      '(keyLen, r1) ← read_u32 r0;
      '(valLen, r2) ← read_u32 r1;
      '(key, r3) ← read_full (Z.to_nat keyLen) r2;
      '(val, r4) ← read_full (Z.to_nat valLen) r3;
      if decide (flag = flagNormal) then
        Some (Normal (string_of_list_ascii key) val, r4)
      else if decide (flag = flagTombstone ∧ valLen = 0) then
        Some (Tombstone (string_of_list_ascii key), r4)
      else None
  end.

(** The record that starts at offset [off] of a data file. *)
Definition record_at (c : bytes) (off : Z) : option record :=
  if off <? 0 then None else fst <$> decode_record (drop (Z.to_nat off) c).

Fixpoint decode_log_loop (fuel : nat) (r : bytes) : option (list record) :=
  match fuel with
  | O => None
  | S fuel' =>
      match r with
      | [] => Some []
      | _ =>
          '(x, r') ← decode_record r;
          xs ← decode_log_loop fuel' r';
          Some (x :: xs)
      end
  end.

Definition decode_log (c : bytes) : option (list record) :=
  decode_log_loop (S (length c)) c.

(** What [mergeFiles] enters in [latest] for a record. *)
Definition entry_of (r : record) : entry :=
  match r with
  | Normal _ val => mkEntry val false
  | Tombstone _ => mkEntry [] true
  end.

(** One turn of the read loop of [mergeFiles], on a decoded record. *)
Definition merge_record (latest : gmap string entry) (r : record)
    : gmap string entry :=
  let keyStr := TrimSpace (rkey r) in
  match latest !! keyStr with
  | Some _ => latest
  | None => <[keyStr := entry_of r]> latest
  end.

Definition merge_records (rs : list record) (latest : gmap string entry)
    : gmap string entry :=
  foldl merge_record latest rs.

(** The records that the output loop of [mergeFiles] writes. *)
Definition live_records (latest : gmap string entry) : list record :=
  omap (λ '(k, e), if tombstone e then None else Some (Normal k (value e)))
       (map_to_list latest).

(** Newest-wins: files are listed newest first and every file is
    append-only, so the newest record for [k] is the last one for [k] in
    the first file that has one. [norm] is what is done to a key before
    it is compared. *)
Definition newest_by (norm : string → string) (k : string)
    (logs : list (list record)) : option record :=
  find (λ r, bool_decide (norm (rkey r) = k)) (logs ≫= reverse).

Definition is_normal (r : record) : Prop :=
  match r with Normal _ _ => True | Tombstone _ => False end.

(** Merge correctness (P7) over the data files [paths] of the store
    [st], whose records are [content]: the merge succeeds, its output
    holds normal records only, no key twice, and exactly the keys whose
    newest record is normal, each with the value of that record. *)
Definition merge_newest_wins (norm : string → string) (st : store)
    (paths : list string) (content : string → list record) : Prop :=
  ∃ st' c out,
    mergeFiles paths st = (st', None)
    ∧ files st' !! compacted = Some c
    ∧ decode_log c = Some out
    ∧ Forall is_normal out
    ∧ NoDup (rkey <$> out)
    ∧ ∀ k v, Normal k v ∈ out
             ↔ ∃ k0, newest_by norm k (content <$> paths) = Some (Normal k0 v).

(** Two generations of a key that differ in white space only. *)
Definition blank_key_dir : dir :=
  {[ "data_2.log" := record_bytes (Normal " a" ["1"%char]);
     "data_1.log" := record_bytes (Normal "a" ["2"%char]) ]}.

Definition blank_key_content (p : string) : list record :=
  if decide (p = "data_2.log") then [Normal " a" ["1"%char]]
  else [Normal "a" ["2"%char]].

(** The same with a no-break space (U+00A0, bytes C2 A0) before the key
    of the newer record. *)
Definition nbsp_key : string := String "194" (String "160" "a").

Definition nbsp_key_dir : dir :=
  {[ "data_2.log" := record_bytes (Normal nbsp_key ["1"%char]);
     "data_1.log" := record_bytes (Normal "a" ["2"%char]) ]}.

(** One file with two puts of the same key. *)
Definition rewritten_key_dir : dir :=
  {[ "data_1.log" := log_bytes [Normal "a" ["1"%char]; Normal "a" ["2"%char]] ]}.

(** Every key and value of the table fits an unsigned 32-bit length. *)
Definition bounded (latest : gmap string entry) : Prop :=
  ∀ k e, latest !! k = Some e → len k < 2 ^ 32 ∧ blen (value e) < 2 ^ 32.

(** Every offset of [realOffsets] is the start of a normal record of [c]
    with that key. *)
Definition points_into (c : bytes) (realOffsets : gmap string Z) : Prop :=
  ∀ k off, realOffsets !! k = Some off →
    0 ≤ off < blen c ∧ len k < 2 ^ 32
    ∧ ∃ v, record_at c off = Some (Normal k v).

(** A key starts, or ends, with a white-space character. *)
Definition blank_start (l : bytes) : bool :=
  existsb (λ w, starts_with w l) white_space.

Definition blank_end (l : bytes) : bool :=
  existsb (λ w, starts_with (rev w) (rev l)) white_space.

(** ** Sample stores and directories *)

(** A store freshly opened on an empty directory. *)
Definition empty_store : store := mkStore {[ active := [] ]} 0 true false ∅ 0.

(** A store whose keydir entry for ["a"] lies beyond its 11-byte file. *)
Definition stale_store : store :=
  mkStore {[ active := entry_bytes ["x"%char] ["y"%char] ]} 11 true false
          {[ "a" := mkFileOffset active 50 ]} 11.

(** The rule of the specification for a mutation whose write fails,
    in its words: the operation returns the error and the keydir is left
    unchanged. *)
Definition keydir_kept_on_failed_write (o : io) (key val : string)
    (st : store) : Prop :=
  is_Some (write_fails o) →
  is_Some (Delete o key st).2
  ∧ keyDir (Delete o key st).1 = keyDir st
  ∧ keyDir (put o key val st) = keyDir st.

(** A directory with two generations of hint and data files. *)
Definition two_generations : dir :=
  {[ "data_9.hint" := hint_entry_bytes "a" 0;
     "data_9.log" := entry_bytes ["a"%char] (list_ascii_of_string "old");
     "data_10.hint" := hint_entry_bytes "a" 0;
     "data_10.log" := entry_bytes ["a"%char] (list_ascii_of_string "new") ]}.

(** A directory left by an earlier run: an active file of 11 bytes. *)
Definition used_dir : dir := {[ active := entry_bytes ["x"%char] ["y"%char] ]}.

Definition chars90 : string :=
  "012345678901234567890123456789012345678901234567890123456789012345678901234567890123456789".
Definition chars100 : string := chars90 +:+ "0123456789".

(** A hint file without a data file. *)
Definition orphan_hint_dir : dir := {[ "data_5.hint" := hint_entry_bytes "a" 0 ]}.

(** The rule of the specification for orphan hints, in its words: a hint
    whose companion data file does not exist is skipped, so no keydir
    entry names a missing data file. *)
Definition orphan_hints_skipped (fs : dir) : Prop :=
  ∀ kd key fo,
    RebuildKeyDir fs = Some kd → kd !! key = Some fo → is_Some (fs !! FileID fo).

(** P3 of the specification at one state: after [delete(k)], [get(k)]
    reports Deleted. *)
Definition deleted_after_delete (now : Z) (k : string) (st : store) : Prop :=
  Get k (main_step io_ok now (DEL k) st) = GetDeleted.

Definition store_of (fs : dir) : store := mkStore fs 0 true false ∅ 0.

(** Keys as opaque bytes in merge, in the words of the specification: the
    key stored in the compacted output equals the key bytes of the input
    record. *)
Definition merge_keeps_key_bytes (key : string) (val : bytes) : Prop :=
  ∀ st',
    mergeFiles ["data_1.log"]
      (store_of {[ "data_1.log" := entry_bytes (list_ascii_of_string key) val ]})
    = (st', None) →
    files st' !! compacted = Some (entry_bytes (list_ascii_of_string key) val).

(** A store whose active file has passed [maxFileSize]. *)
Definition full_store : store := put io_ok "k" chars100 empty_store.

(** [full_store] beside a closed log of three stray bytes, on which the
    merge of a rotation fails. *)
Definition stray_log_store : store :=
  set_files (<["data_0.log" := ["000"%char]]> (files full_store)) full_store.

(** ** The directories of a rotation *)

(** The directory after steps 2 and 3 of [rotateFile], [c] being the
    content of the active file. *)
Definition rot_fs2 (now : Z) (fs : dir) (c : bytes) : dir :=
  <[active := []]> (<[log_name now := c]> (delete active (touch lockName fs))).

(** The directory after step 9, [latest] being the table of the merge
    and [realOffsets] the result of the scan. *)
Definition rot_dir (now : Z) (fs : dir) (c : bytes)
    (latest : gmap string entry) (realOffsets : gmap string Z) : dir :=
  let fs2 := rot_fs2 now fs c in
  let logs := newest_first (Glob "data_" ".log" fs2) in
  let cc := log_bytes (live_records latest) in
  let fs5 :=
    <[hint_name now := hint_bytes realOffsets]>
      (<[log_name now := cc]> (delete compacted (<[compacted := cc]> fs2))) in
  let fs6 := remove_except (log_name now) logs fs5 in
  remove_except (hint_name now) (Glob "data_" ".hint" fs6) fs6.

(** The counter is the [int64] value of the size of the active file. *)
Definition counted (st : store) : Prop :=
  ∃ c, files st !! active = Some c ∧ activeFileSize st = wrap64 (blen c).

(** The scan has met the records [done]: every offset recorded is the
    start of one of them in [c], and every one of them has its key
    recorded. *)
Definition scanned (done : list record) (c : bytes)
    (realOffsets : gmap string Z) : Prop :=
  (∀ k off, realOffsets !! k = Some off →
     0 ≤ off < blen c
     ∧ ∃ v, Normal k v ∈ done ∧ record_at c off = Some (Normal k v))
  ∧ (∀ k v, Normal k v ∈ done → is_Some (realOffsets !! k)).

(** * Properties *)

(** ** Bytes and integers *)

Section bin_facts.

Lemma Z_of_byte_of_Z z : Z_of_byte (byte_of_Z z) = z mod 256.
Proof.
  unfold Z_of_byte, byte_of_Z.
  assert (0 ≤ z mod 256 < 256) by (apply Z.mod_pos_bound; lia).
  rewrite N_ascii_embedding by lia. lia.
Qed.

Lemma be_encode_length n z : length (be_encode n z) = n.
Proof. induction n; simpl; congruence. Qed.

Lemma be_fold n z acc :
  fold_left (λ acc b, acc * 256 + Z_of_byte b) (be_encode n z) acc
  = acc * 256 ^ Z.of_nat n + z mod 256 ^ Z.of_nat n.
Proof.
  revert acc. induction n as [|n IH]; intros acc.
  - simpl. rewrite Z.mod_1_r. lia.
  - cbn [be_encode fold_left]. rewrite IH, Z_of_byte_of_Z.
    rewrite Nat2Z.inj_succ, Z.pow_succ_r by lia.
    rewrite (Z.mul_comm 256 (256 ^ Z.of_nat n)).
    rewrite (Z.rem_mul_r z (256 ^ Z.of_nat n) 256) by lia. lia.
Qed.

Lemma be_decode_encode n z :
  0 ≤ z < 256 ^ Z.of_nat n → be_decode (be_encode n z) = z.
Proof.
  intros Hz. unfold be_decode. rewrite be_fold, Z.mod_small; lia.
Qed.

Lemma read_full_app (b r : bytes) : read_full (length b) (b ++ r) = Some (b, r).
Proof.
  unfold read_full. rewrite decide_True by (rewrite length_app; lia).
  by rewrite take_app_length, drop_app_length.
Qed.

Lemma read_u32_put z r :
  0 ≤ z < 2 ^ 32 → read_u32 (put_u32 z ++ r) = Some (z, r).
Proof.
  intros Hz. unfold read_u32, put_u32.
  replace 4%nat with (length (be_encode 4 z)) at 1 by apply be_encode_length.
  rewrite read_full_app. cbn -[be_decode be_encode Z.pow].
  by rewrite be_decode_encode.
Qed.

Lemma read_u64_put z r :
  0 ≤ z < 2 ^ 64 → read_u64 (put_u64 z ++ r) = Some (z, r).
Proof.
  intros Hz. unfold read_u64, put_u64.
  replace 8%nat with (length (be_encode 8 z)) at 1 by apply be_encode_length.
  rewrite read_full_app. cbn -[be_decode be_encode Z.pow].
  by rewrite be_decode_encode.
Qed.

Lemma read_u32_lax_put z r :
  0 ≤ z < 2 ^ 32 → read_u32_lax (put_u32 z ++ r) = (z, r).
Proof.
  intros Hz. unfold read_u32_lax, put_u32.
  rewrite decide_True by (rewrite length_app, be_encode_length; lia).
  replace 4%nat with (length (be_encode 4 z)) by apply be_encode_length.
  by rewrite take_app_length, drop_app_length, be_decode_encode.
Qed.

Lemma read_u32_lax_nil : read_u32_lax [] = (0, []).
Proof. reflexivity. Qed.

Lemma read_full_lax_exact (b r : bytes) : read_full_lax (length b) (b ++ r) = b.
Proof.
  unfold read_full_lax. rewrite take_app_length, length_app.
  replace (length b - (length b + length r))%nat with 0%nat by lia.
  simpl. by rewrite app_nil_r.
Qed.

Lemma length_bytes_of_string s :
  length (list_ascii_of_string s) = String.length s.
Proof. induction s; simpl; congruence. Qed.

Lemma blen_bytes_of_string s : blen (list_ascii_of_string s) = len s.
Proof. unfold blen, len. by rewrite length_bytes_of_string. Qed.

End bin_facts.

Global Arguments be_encode : simpl never.
Global Arguments be_decode : simpl never.
Global Arguments put_u32 : simpl never.
Global Arguments put_u64 : simpl never.
Global Arguments read_full : simpl never.
Global Arguments read_u32 : simpl never.
Global Arguments read_u64 : simpl never.
Global Arguments read_u32_lax : simpl never.
Global Arguments read_full_lax : simpl never.

(** ** Get on an offset beyond the end of the file *)

(** C10: when the keydir entry of [key] holds an offset at or beyond the
    end of the stored file, the reads of [Get] find nothing: the flag
    buffer keeps 0 (a normal record), both lengths read as 0, and [Get]
    returns the empty string as a value, without an error. *)
Theorem get_beyond_end_is_empty_value (key : string) (st : store)
    (fo : FileOffset) (c : bytes) :
  keyDir st !! key = Some fo →
  files st !! FileID fo = Some c →
  blen c ≤ Offset fo →
  read_flag (seek_start (Offset fo) c) = (flagNormal, [])
  ∧ read_u32_lax [] = (0, [])
  ∧ Get key st = GetValue "".
Proof.
  intros Hk Hf Hoff. unfold blen in Hoff.
  assert (Hseek : seek_start (Offset fo) c = []).
  { unfold seek_start. destruct (Z.ltb_spec (Offset fo) 0); [lia|].
    apply drop_ge. lia. }
  split_and!; [by rewrite Hseek | done |].
  unfold Get. rewrite Hk, Hf, Hseek. reflexivity.
Qed.

Lemma get_beyond_end_is_empty_value_witness :
  Get "a" stale_store = GetValue "".
Proof.
  refine (proj2 (proj2 (get_beyond_end_is_empty_value "a" stale_store
            (mkFileOffset active 50) (entry_bytes ["x"%char] ["y"%char]) _ _ _)));
    [reflexivity | reflexivity | vm_compute; discriminate].
Defined.

(** ** Mutations whose I/O fails *)

(** A [Delete] whose write fails on the empty store returns no error,
    against the rule that the error is returned and the keydir kept. *)
Lemma failed_write_counterexample :
  ¬ keydir_kept_on_failed_write (mkIo false (Some 0%nat)) "a" "1" empty_store.
Proof.
  intros H. destruct (H (mk_is_Some _ _ eq_refl)) as [[e He] _].
  vm_compute in He. discriminate.
Qed.

Lemma flush_failed_files n buf st :
  (∀ name, name ≠ active →
           files (flush (Some n) buf st) !! name = files st !! name)
  ∧ ∃ part, part `prefix_of` buf
            ∧ ∀ c, files st !! active = Some c →
                   files (flush (Some n) buf st) !! active = Some (c ++ part).
Proof.
  unfold flush. destruct (w_err st).
  { split; [done|]. exists []. split; [apply prefix_nil|].
    intros c Hc. by rewrite app_nil_r. }
  destruct (take n buf) as [|a part] eqn:Ht.
  { split; [done|]. exists []. split; [apply prefix_nil|].
    intros c Hc. by rewrite app_nil_r. }
  cbn [files]. split.
  - intros name Hne. by rewrite lookup_insert_ne.
  - exists (a :: part). split.
    + rewrite <- Ht. apply prefix_take.
    + intros c Hc. by rewrite lookup_insert_eq, Hc.
Qed.

(** C8, amended: the only I/O result a mutation looks at is that of the
    [Seek] in [Delete]: when it fails, [Delete] returns the error and
    changes nothing. A failing write or flush is not noticed: [Delete]
    returns no error, and both [Delete] and the [PUT] case still enter
    the key in the keydir with the captured offset. The failed write
    leaves every other file as it was, and [data.txt] with its old
    content followed by a part of the record (none of it, some or all). *)
Theorem failed_write_still_updates_keydir (key val : string) (st : store)
    (wf : option nat) (n : nat) :
  Delete (mkIo true wf) key st = (st, Some ErrSeek)
  ∧ (Delete (mkIo false (Some n)) key st).2 = None
  ∧ keyDir (Delete (mkIo false (Some n)) key st).1
    = <[key := mkFileOffset active (f_pos st)]> (keyDir st)
  ∧ keyDir (put (mkIo false (Some n)) key val st)
    = <[key := mkFileOffset active (f_pos st)]> (keyDir st)
  ∧ (∀ name, name ≠ active →
       files (Delete (mkIo false (Some n)) key st).1 !! name = files st !! name
       ∧ files (put (mkIo false (Some n)) key val st) !! name = files st !! name)
  ∧ (∃ part, part `prefix_of` record_bytes (Tombstone key)
       ∧ ∀ c, files st !! active = Some c →
              files (Delete (mkIo false (Some n)) key st).1 !! active
              = Some (c ++ part))
  ∧ (∃ part, part `prefix_of` record_bytes (Normal key (list_ascii_of_string val))
       ∧ ∀ c, files st !! active = Some c →
              files (put (mkIo false (Some n)) key val st) !! active
              = Some (c ++ part)).
Proof.
  pose proof (flush_failed_files n (tombstone_bytes (list_ascii_of_string key))
                (set_size (wrap64 (activeFileSize st
                                   + (1 + 8 + blen (list_ascii_of_string key)))) st))
    as [Hd1 Hd2].
  pose proof (flush_failed_files n
                (entry_bytes (list_ascii_of_string key) (list_ascii_of_string val))
                (set_size (wrap64 (activeFileSize st
                                   + (1 + 8 + blen (list_ascii_of_string key)
                                      + blen (list_ascii_of_string val)))) st))
    as [Hp1 Hp2].
  assert (Hkd : ∀ buf st0, keyDir (flush (Some n) buf st0) = keyDir st0).
  { intros buf st0. unfold flush. destruct (w_err st0); [done|].
    by destruct (take n buf). }
  unfold Delete, put, writeTombstone, writeEntry.
  cbn [seek_fails write_fails fst snd app]. cbv beta iota zeta.
  cbn [set_keyDir keyDir files fst snd]. rewrite !Hkd. cbn [set_size keyDir].
  split_and!; [done..| |exact Hd2|exact Hp2].
  intros name Hne. split; [by apply Hd1|by apply Hp1].
Qed.

(** ** Recovery order *)

(** C2: with hint files of generations 9 and 10, [extractTimestamp]
    answers 0 for both names (its format ends in [.log]), the sort keeps
    the order of [Glob], which is that of the names as strings, and the
    entry of generation 9 is the one left in the keydir. *)
Theorem recovery_order_ignores_identifier :
  extractTimestamp "data_10.log" = 10
  ∧ extractTimestamp "data_10.hint" = 0
  ∧ extractTimestamp "data_9.hint" = 0
  ∧ hint_order two_generations = ["data_10.hint"; "data_9.hint"]
  ∧ RebuildKeyDir two_generations = Some {[ "a" := mkFileOffset "data_9.log" 0 ]}
  ∧ (st ← open_store two_generations; Some (Get "a" st)) = Some (GetValue "old").
Proof. vm_compute. done. Qed.

(** ** Offsets captured by mutations *)

(** C4: on a store opened over an active file of 11 bytes the handle
    stands at 0; the first [PUT] appends its record at offset 11 but
    enters offset 0 in the keydir, and [Get] then reads the record of
    another key. After a rotation the offset asked of the old handle is
    stale as well: the first [PUT] lands at offset 0 of the new active
    file and is entered at offset 110. *)
Theorem first_put_after_open_captures_zero :
  (∃ st,
     open_store used_dir = Some st
     ∧ files st !! active = Some (entry_bytes ["x"%char] ["y"%char])
     ∧ blen (entry_bytes ["x"%char] ["y"%char]) = 11
     ∧ files (put io_ok "a" "1" st) !! active
       = Some (entry_bytes ["x"%char] ["y"%char] ++ entry_bytes ["a"%char] ["1"%char])
     ∧ keyDir (put io_ok "a" "1" st) !! "a" = Some (mkFileOffset active 0)
     ∧ Get "a" (put io_ok "a" "1" st) = GetValue "y")
  ∧ (let st2 := (rotateFile 1 full_store).1 in
     files st2 !! active = Some []
     ∧ files (put io_ok "b" "2" st2) !! active
       = Some (entry_bytes ["b"%char] ["2"%char])
     ∧ keyDir (put io_ok "b" "2" st2) !! "b" = Some (mkFileOffset active 110)
     ∧ Get "b" (put io_ok "b" "2" st2) = GetValue "").
Proof.
  split; [eexists; split; [reflexivity|]|]; vm_compute; done.
Qed.

(** ** The size counter across a rotation *)

(** C5: a [PUT] of 110 bytes on an empty store triggers a rotation; the
    rotation succeeds, the new active file is empty, and the counter
    holds the 110 bytes that the merge wrote to the compacted file. *)
Theorem counter_after_rotation_counts_merge_output :
  let st1 := put io_ok "k" chars100 empty_store in
  activeFileSize st1 = 110
  ∧ (rotateFile 1 st1).2 = None
  ∧ files (rotateFile 1 st1).1 !! active = Some []
  ∧ activeFileSize (rotateFile 1 st1).1 = 110
  ∧ activeFileSize (main_step io_ok 1 (PUT "k" chars100) empty_store) = 110.
Proof. vm_compute. done. Qed.

(** ** Orphan hints *)

(** With [data_5.hint] alone in the directory, the keydir binds its key
    to [data_5.log], which does not exist. *)
Lemma orphan_hint_counterexample : ¬ orphan_hints_skipped orphan_hint_dir.
Proof.
  intros H.
  destruct (H {[ "a" := mkFileOffset "data_5.log" 0 ]} "a"
              (mkFileOffset "data_5.log" 0)) as [c Hc];
    [by vm_compute | by vm_compute | by vm_compute in Hc].
Qed.

(** ** Delete and rotation *)

(** After a [PUT] of 100 bytes, [DEL k] brings the active file to 110
    bytes: the rotation that follows drops the tombstone, and [Get k]
    answers not found. *)
Lemma delete_then_rotation_counterexample :
  ¬ deleted_after_delete 2 "k" (put io_ok "a" chars90 empty_store).
Proof. unfold deleted_after_delete. vm_compute. discriminate. Qed.

(** ** Keys in merge *)

(** The record with key [" a"] is written to the output with key ["a"]. *)
Lemma merge_trims_key_counterexample :
  ¬ merge_keeps_key_bytes " a" ["1"%char].
Proof.
  intros H. specialize (H _ eq_refl). vm_compute in H. discriminate.
Qed.

(** ** Sorting and globbing *)

Section sort_facts.
Context {A : Type} (less : A → A → bool).

Lemma sift_perm x acc : sift less x acc ≡ₚ x :: acc.
Proof.
  induction acc as [|y acc IH]; simpl; [done|].
  destruct (less x y); [|done]. rewrite IH. apply perm_swap.
Qed.

Lemma sort_fold_perm xs acc :
  fold_left (λ acc x, sift less x acc) xs acc ≡ₚ xs ++ acc.
Proof.
  revert acc. induction xs as [|x xs IH]; intros acc; simpl; [done|].
  rewrite IH, sift_perm. by rewrite Permutation_middle.
Qed.

Lemma sort_slice_perm xs : sort_slice less xs ≡ₚ xs.
Proof.
  unfold sort_slice. rewrite <- Permutation_rev, sort_fold_perm.
  by rewrite app_nil_r.
Qed.

Lemma elem_of_sort_slice x xs : x ∈ sort_slice less xs ↔ x ∈ xs.
Proof. by rewrite sort_slice_perm. Qed.
End sort_facts.

Lemma elem_of_Glob pre suf (fs : dir) name :
  name ∈ Glob pre suf fs ↔ is_Some (fs !! name) ∧ glob_match pre suf name = true.
Proof.
  unfold Glob. rewrite list_elem_of_filter, merge_sort_Permutation.
  rewrite list_elem_of_fmap. split.
  - intros [Hm [[n c] [-> Hin]]]. apply elem_of_map_to_list in Hin. eauto.
  - intros [[c Hc] Hm]. split; [done|]. exists (name, c). split; [done|].
    by apply elem_of_map_to_list.
Qed.

(** ** Startup recovery *)

Lemma hint_loop_entries fuel logFile r kd :
  hint_loop fuel logFile r kd
  = es ← hint_entries_loop fuel r; Some (bind_hints logFile es kd).
Proof.
  revert r kd. induction fuel as [|fuel IH]; intros r kd; simpl; [done|].
  destruct r as [|a r]; [done|].
  destruct (read_u32 (a :: r)) as [[keyLen r1]|]; simpl; [|done].
  destruct (read_u64 _) as [[off r3]|]; simpl; [|done].
  rewrite IH. by destruct (hint_entries_loop fuel r3).
Qed.

Lemma bind_hints_keeps logFile es kd key :
  is_Some (kd !! key) → is_Some (bind_hints logFile es kd !! key).
Proof.
  revert kd. induction es as [|[k off] es IH]; intros kd Hkd; simpl; [done|].
  apply IH. destruct (decide (k = key)) as [->|Hne].
  - rewrite lookup_insert_eq. eauto.
  - by rewrite lookup_insert_ne.
Qed.

Lemma bind_hints_in logFile es kd key off :
  (key, off) ∈ es → is_Some (bind_hints logFile es kd !! key).
Proof.
  revert kd. induction es as [|[k o] es IH]; intros kd Hin; simpl.
  - by apply elem_of_nil in Hin.
  - apply elem_of_cons in Hin as [[= <- <-]|Hin]; [|by apply IH].
    apply bind_hints_keeps. rewrite lookup_insert_eq. eauto.
Qed.

Lemma bind_hints_from logFile es kd key fo :
  bind_hints logFile es kd !! key = Some fo →
  kd !! key = Some fo ∨ ((key, Offset fo) ∈ es ∧ FileID fo = logFile).
Proof.
  revert kd. induction es as [|[k o] es IH]; intros kd Hfo; simpl in *; [by left|].
  destruct (IH _ Hfo) as [Hkd|[Hin Hid]].
  - destruct (decide (k = key)) as [->|Hne].
    + rewrite lookup_insert_eq in Hkd. injection Hkd as <-. right.
      split; [by left | done].
    + rewrite lookup_insert_ne in Hkd by done. by left.
  - right. split; [by right | done].
Qed.

Lemma hints_loop_cons_inv fs h hs kd kd' :
  hints_loop fs (h :: hs) kd = Some kd' →
  ∃ c es, fs !! h = Some c ∧ hint_entries c = Some es
          ∧ hints_loop fs hs (bind_hints (companion h) es kd) = Some kd'.
Proof.
  cbn [hints_loop]. intros Hrun.
  destruct (fs !! h) as [c|]; cbn [mbind option_bind] in Hrun; [|done].
  rewrite hint_loop_entries in Hrun. fold (hint_entries c) in Hrun.
  destruct (hint_entries c) as [es|] eqn:Hes;
    cbn [mbind option_bind] in Hrun; [|done].
  by exists c, es.
Qed.

Lemma hints_loop_keeps fs hs kd kd' key :
  hints_loop fs hs kd = Some kd' → is_Some (kd !! key) → is_Some (kd' !! key).
Proof.
  revert kd. induction hs as [|h hs IH]; intros kd Hrun Hkey.
  - by injection Hrun as <-.
  - apply hints_loop_cons_inv in Hrun as (c & es & _ & _ & Hrun).
    eapply IH; [done|]. by apply bind_hints_keeps.
Qed.

Lemma hints_loop_binds fs hs kd kd' h c es key off :
  hints_loop fs hs kd = Some kd' →
  h ∈ hs → fs !! h = Some c → hint_entries c = Some es → (key, off) ∈ es →
  is_Some (kd' !! key).
Proof.
  revert kd. induction hs as [|h0 hs IH]; intros kd Hrun Hh Hc Hes Hin.
  - by apply elem_of_nil in Hh.
  - apply hints_loop_cons_inv in Hrun as (c0 & es0 & Hc0 & Hes0 & Hrun).
    apply elem_of_cons in Hh as [->|Hh]; [|by eapply IH].
    rewrite Hc in Hc0. injection Hc0 as <-.
    rewrite Hes in Hes0. injection Hes0 as <-.
    eapply hints_loop_keeps; [done|]. by eapply bind_hints_in.
Qed.

Lemma hints_loop_from fs hs kd kd' key fo :
  hints_loop fs hs kd = Some kd' → kd' !! key = Some fo →
  kd !! key = Some fo
  ∨ ∃ h c es, h ∈ hs ∧ fs !! h = Some c ∧ hint_entries c = Some es
              ∧ (key, Offset fo) ∈ es ∧ FileID fo = companion h.
Proof.
  revert kd. induction hs as [|h hs IH]; intros kd Hrun Hfo.
  - injection Hrun as <-. by left.
  - apply hints_loop_cons_inv in Hrun as (c & es & Hc & Hes & Hrun).
    destruct (IH _ Hrun Hfo) as [Hb|(h' & c' & es' & Hh' & ?)].
    + apply bind_hints_from in Hb as [?|[Hin Hid]]; [by left|].
      right. exists h, c, es. split_and!; [by left|done..].
    + right. exists h', c', es'. split; [by right|done].
Qed.

Lemma hints_loop_ext fs fs' hs kd :
  (∀ h, h ∈ hs → fs' !! h = fs !! h) →
  hints_loop fs' hs kd = hints_loop fs hs kd.
Proof.
  revert kd. induction hs as [|h hs IH]; intros kd Hext; cbn [hints_loop]; [done|].
  rewrite Hext by (by left).
  destruct (fs !! h) as [c|]; cbn [mbind option_bind]; [|done].
  destruct (hint_loop _ _ c kd) as [kd1|]; cbn [mbind option_bind]; [|done].
  apply IH. intros h' Hh'. apply Hext. by right.
Qed.

(** The result of [Glob] depends only on the entries that match. *)
Lemma matching_keys_delete pre suf (fs : dir) name :
  glob_match pre suf name = false →
  filter (λ n, glob_match pre suf n = true) (map_to_list (delete name fs)).*1
  ≡ₚ filter (λ n, glob_match pre suf n = true) (map_to_list fs).*1.
Proof.
  intros Hno. destruct (fs !! name) as [c|] eqn:Hc.
  - rewrite <- (insert_delete_id fs name c) at 2 by done.
    rewrite map_to_list_insert by apply lookup_delete_eq.
    rewrite fmap_cons, filter_cons_False; [done|]. simpl. congruence.
  - by rewrite delete_id.
Qed.

Lemma Glob_sorted pre suf (fs : dir) : StronglySorted String.le (Glob pre suf fs).
Proof.
  unfold Glob.
  assert (Hs : StronglySorted String.le (merge_sort String.le (map_to_list fs).*1)).
  { apply Sorted_StronglySorted; [apply _|]. apply Sorted_merge_sort, _. }
  induction Hs as [|x l Hl IH Hx]; [constructor|].
  rewrite filter_cons. case_decide; [|done]. constructor; [done|].
  apply Forall_forall. intros y Hy. apply list_elem_of_filter in Hy as [_ Hy].
  by eapply Forall_forall in Hx.
Qed.

Lemma Glob_perm pre suf (fs : dir) :
  Glob pre suf fs ≡ₚ filter (λ n, glob_match pre suf n = true) (map_to_list fs).*1.
Proof. unfold Glob. by rewrite merge_sort_Permutation. Qed.

Lemma Glob_delete_other pre suf (fs : dir) name :
  glob_match pre suf name = false →
  Glob pre suf (delete name fs) = Glob pre suf fs.
Proof.
  intros Hno. apply (StronglySorted_unique String.le); [apply Glob_sorted..|].
  rewrite !Glob_perm. by apply matching_keys_delete.
Qed.

Lemma Glob_insert_other pre suf (fs : dir) name c :
  glob_match pre suf name = false →
  Glob pre suf (<[name := c]> fs) = Glob pre suf fs.
Proof.
  intros Hno. rewrite <- (Glob_delete_other pre suf fs name Hno).
  rewrite <- (Glob_delete_other pre suf (<[name := c]> fs) name Hno).
  by rewrite delete_insert_eq.
Qed.

Lemma hint_order_elem fs h :
  h ∈ hint_order fs ↔ is_Some (fs !! h) ∧ glob_match "data_" ".hint" h = true.
Proof. unfold hint_order. by rewrite elem_of_sort_slice, elem_of_Glob. Qed.

Lemma RebuildKeyDir_delete_other fs name :
  glob_match "data_" ".hint" name = false →
  RebuildKeyDir (delete name fs) = RebuildKeyDir fs.
Proof.
  intros Hno. unfold RebuildKeyDir, hint_order. rewrite Glob_delete_other by done.
  apply hints_loop_ext. intros h Hh.
  apply hint_order_elem in Hh as [_ Hm].
  apply lookup_delete_ne. congruence.
Qed.

Lemma RebuildKeyDir_insert_other fs name c :
  glob_match "data_" ".hint" name = false →
  RebuildKeyDir (<[name := c]> fs) = RebuildKeyDir fs.
Proof.
  intros Hno. unfold RebuildKeyDir, hint_order. rewrite Glob_insert_other by done.
  apply hints_loop_ext. intros h Hh.
  apply hint_order_elem in Hh as [_ Hm].
  apply lookup_insert_ne. congruence.
Qed.

(** C3, amended: recovery skips no hint file and never looks for a
    companion data file. It reads hint files only: adding, replacing or
    removing a file that is not a hint file (so any data file) leaves the
    rebuilt keydir the same, and recovery itself changes no file. Every
    entry of every hint file has its key in the rebuilt keydir, and every
    keydir entry is an entry of some hint file, bound to the companion
    name of that hint file. *)
Theorem recovery_reads_hints_only (fs : dir) (kd : gmap string FileOffset) :
  RebuildKeyDir fs = Some kd →
  (∀ name c, glob_match "data_" ".hint" name = false →
     RebuildKeyDir (<[name := c]> fs) = Some kd
     ∧ RebuildKeyDir (delete name fs) = Some kd)
  ∧ (∀ h c es key off,
       glob_match "data_" ".hint" h = true → fs !! h = Some c →
       hint_entries c = Some es → (key, off) ∈ es → is_Some (kd !! key))
  ∧ (∀ key fo, kd !! key = Some fo →
       ∃ h c es, glob_match "data_" ".hint" h = true ∧ fs !! h = Some c
                 ∧ hint_entries c = Some es ∧ (key, Offset fo) ∈ es
                 ∧ FileID fo = companion h).
Proof.
  intros Hkd. split_and!.
  - intros name c Hno.
    by rewrite RebuildKeyDir_insert_other, RebuildKeyDir_delete_other.
  - intros h c es key off Hm Hc Hes Hin.
    eapply hints_loop_binds; [exact Hkd| |done..].
    apply hint_order_elem. eauto.
  - intros key fo Hfo.
    destruct (hints_loop_from _ _ _ _ _ _ Hkd Hfo)
      as [Hempty|(h & c & es & Hh & Hc & Hes & Hin & Hid)].
    + by rewrite lookup_empty in Hempty.
    + apply hint_order_elem in Hh as [_ Hm]. by exists h, c, es.
Qed.

Lemma recovery_reads_hints_only_witness :
  RebuildKeyDir (<["data_5.log" := []]> orphan_hint_dir)
  = Some {[ "a" := mkFileOffset "data_5.log" 0 ]}.
Proof.
  refine (proj1 (proj1 (recovery_reads_hints_only orphan_hint_dir
            {[ "a" := mkFileOffset "data_5.log" 0 ]} _) "data_5.log" [] _));
    reflexivity.
Defined.

(** ** Put, delete and get on a synced store *)

Lemma put_synced st c key val :
  w_on_f st = true → w_err st = false →
  files st !! active = Some c → f_pos st = blen c →
  let c' := c ++ entry_bytes (list_ascii_of_string key) (list_ascii_of_string val) in
  files (put io_ok key val st) = <[active := c']> (files st)
  ∧ keyDir (put io_ok key val st) = <[key := mkFileOffset active (blen c)]> (keyDir st)
  ∧ f_pos (put io_ok key val st) = blen c'
  ∧ w_on_f (put io_ok key val st) = true ∧ w_err (put io_ok key val st) = false.
Proof.
  intros Hw He Hc Hp. unfold put, flush, writeEntry; simpl.
  rewrite He, Hw, Hc, Hp; simpl. done.
Qed.

Lemma Delete_synced st c key :
  w_on_f st = true → w_err st = false →
  files st !! active = Some c → f_pos st = blen c →
  let c' := c ++ tombstone_bytes (list_ascii_of_string key) in
  let st' := (Delete io_ok key st).1 in
  files st' = <[active := c']> (files st)
  ∧ keyDir st' = <[key := mkFileOffset active (blen c)]> (keyDir st)
  ∧ f_pos st' = blen c'
  ∧ w_on_f st' = true ∧ w_err st' = false.
Proof.
  intros Hw He Hc Hp. unfold Delete, flush, writeTombstone; simpl.
  rewrite He, Hw, Hc, Hp; simpl. done.
Qed.

Lemma Get_tombstone k st : at_tombstone k st → Get k st = GetDeleted.
Proof.
  intros (c & off & Hc & Hk & Hoff & Hflag).
  unfold Get. rewrite Hk; simpl. rewrite Hc.
  unfold seek_start, read_flag. destruct (Z.ltb_spec off 0); [lia|].
  rewrite head_lookup, lookup_drop, Nat.add_0_r, Hflag. done.
Qed.

Lemma entry_bytes_app key val rest :
  entry_bytes key val ++ rest
  = flagNormal :: put_u32 (blen key) ++ put_u32 (blen val) ++ key ++ val ++ rest.
Proof. unfold entry_bytes. by rewrite <- !app_assoc. Qed.

Lemma tombstone_bytes_app key rest :
  tombstone_bytes key ++ rest
  = flagTombstone :: put_u32 (blen key) ++ put_u32 0 ++ key ++ rest.
Proof. unfold tombstone_bytes. by rewrite <- !app_assoc. Qed.

Lemma read_flag_cons a r : read_flag (a :: r) = (a, r).
Proof. reflexivity. Qed.

Lemma Get_entry k v st c rest :
  keyDir st !! k = Some (mkFileOffset active (blen c)) →
  files st !! active
  = Some (c ++ entry_bytes (list_ascii_of_string k) (list_ascii_of_string v) ++ rest) →
  len k < 2 ^ 32 → len v < 2 ^ 32 →
  Get k st = GetValue v.
Proof.
  intros Hk Hc Hlk Hlv. unfold Get. rewrite Hk. cbn [FileID Offset]. rewrite Hc.
  unfold seek_start, blen.
  destruct (Z.ltb_spec (Z.of_nat (length c)) 0); [lia|].
  rewrite Nat2Z.id, drop_app_length, entry_bytes_app, read_flag_cons.
  cbv beta iota. rewrite decide_False by done.
  rewrite !blen_bytes_of_string.
  rewrite read_u32_lax_put by (unfold len in *; lia). cbv beta iota.
  rewrite read_u32_lax_put by (unfold len in *; lia). cbv beta iota.
  unfold len. rewrite !Nat2Z.id.
  rewrite <- (length_bytes_of_string k) at 1. rewrite drop_app_length.
  rewrite <- (length_bytes_of_string v) at 1. rewrite read_full_lax_exact.
  by rewrite string_of_list_ascii_of_string.
Qed.

Lemma synced_at_tombstone_step k c0 st :
  synced st → at_tombstone k st →
  (∀ v, c0 ≠ PUT k v) →
  synced (exec io_ok c0 st) ∧ at_tombstone k (exec io_ok c0 st).
Proof.
  intros (Hw & He & c & Hc & Hp) (c' & off & Hc' & Hk & Hoff & Hflag) Hnot.
  rewrite Hc in Hc'. injection Hc' as <-.
  destruct c0 as [key val|key|key]; cbn [exec].
  - destruct (put_synced st c key val Hw He Hc Hp) as (Hf' & Hk' & Hp' & Hw' & He').
    split.
    + split_and!; [done..|]. eexists. rewrite Hf', lookup_insert_eq. eauto.
    + exists (c ++ entry_bytes (list_ascii_of_string key) (list_ascii_of_string val)), off.
      rewrite Hf', Hk', lookup_insert_eq.
      rewrite lookup_insert_ne by (intros ->; by eapply Hnot).
      split_and!; [done..|]. by apply lookup_app_l_Some.
  - destruct (Delete_synced st c key Hw He Hc Hp) as (Hf' & Hk' & Hp' & Hw' & He').
    split.
    + split_and!; [done..|]. eexists. rewrite Hf', lookup_insert_eq. eauto.
    + unfold at_tombstone. destruct (decide (key = k)) as [->|Hne].
      * exists (c ++ tombstone_bytes (list_ascii_of_string k)), (blen c).
        rewrite Hf', Hk', !lookup_insert_eq. unfold blen.
        split_and!; [done..|lia|].
        rewrite Nat2Z.id, lookup_app_r, Nat.sub_diag by lia. done.
      * exists (c ++ tombstone_bytes (list_ascii_of_string key)), off.
        rewrite Hf', Hk', lookup_insert_eq, lookup_insert_ne by done.
        split_and!; [done..|]. by apply lookup_app_l_Some.
  - split; [by split_and!; eauto | by exists c, off].
Qed.

Lemma main_step_calm now c0 st :
  activeFileSize (exec io_ok c0 st) ≤ maxFileSize →
  main_step io_ok now c0 st = exec io_ok c0 st.
Proof.
  intros Hle. unfold main_step.
  destruct (Z.gtb_spec (activeFileSize (exec io_ok c0 st)) maxFileSize); [lia|done].
Qed.

Lemma run_calm_tombstone k cs st :
  synced st → at_tombstone k st → calm cs st →
  (∀ t v, (t, PUT k v) ∉ cs) →
  synced (run cs st) ∧ at_tombstone k (run cs st).
Proof.
  revert st. induction cs as [|[t c0] cs IH]; intros st Hs Ht Hcalm Hno; [done|].
  destruct Hcalm as [Hle Hcalm]. unfold run. cbn [foldl].
  rewrite main_step_calm by done.
  destruct (synced_at_tombstone_step k c0 st Hs Ht) as [Hs' Ht'].
  { intros v ->. apply (Hno t v). by left. }
  apply IH; [done..|]. intros t' v Hin. apply (Hno t' v). by right.
Qed.

(** The hypothesis [synced] of the next theorem holds after every
    mutation of a run that has had no rotation and no I/O error. *)
Lemma mutation_syncs (st : store) (key val : string) :
  w_on_f st = true → w_err st = false → is_Some (files st !! active) →
  synced (put io_ok key val st) ∧ synced (Delete io_ok key st).1.
Proof.
  intros Hw He [c Hc].
  unfold put, Delete, writeEntry, writeTombstone, flush, synced.
  cbn [seek_fails write_fails io_ok fst]. cbv beta iota zeta.
  cbn [w_err set_size set_keyDir w_on_f files f_pos]. rewrite He, Hw.
  cbn [w_err w_on_f files f_pos].
  split; (split_and!; [done..|]); eexists; by rewrite lookup_insert_eq.
Qed.

(** A [DEL] that sets off a rotation while the [PUT] of its key lies in
    the same active file: the merge keeps the [PUT], and [Get] answers
    with the value that was deleted. *)
Lemma delete_then_rotation_returns_old_value :
  Get "a" (main_step io_ok 2 (DEL "a") (put io_ok "a" chars90 empty_store))
  = GetValue chars90.
Proof. vm_compute. reflexivity. Qed.

(** C7, amended: in a run without I/O errors, on a store whose writer
    wraps the handle that [main] opened and whose handle stands at the
    end of the active file (as it is after any mutation of a run that has
    had no rotation, and from the [open] on when the active file was
    empty then), and as long as no rotation takes place: after [DEL k],
    [Get k] reports Deleted, through any later commands that are not a
    [PUT] of [k]; and a [PUT k v] after that makes [Get k] return [v]. *)
Theorem delete_reported_until_put (st : store) (k : string) (t0 : Z)
    (cs : list (Z * cmd)) :
  synced st →
  calm ((t0, DEL k) :: cs) st →
  (∀ t v, (t, PUT k v) ∉ cs) →
  let st' := run ((t0, DEL k) :: cs) st in
  Get k st' = GetDeleted
  ∧ ∀ t1 v,
      len k < 2 ^ 32 → len v < 2 ^ 32 →
      activeFileSize (exec io_ok (PUT k v) st') ≤ maxFileSize →
      Get k (main_step io_ok t1 (PUT k v) st') = GetValue v.
Proof.
  intros Hs [Hle Hcalm] Hno st'.
  assert (Hdel : synced (exec io_ok (DEL k) st) ∧ at_tombstone k (exec io_ok (DEL k) st)).
  { destruct Hs as (Hw & He & c & Hc & Hp).
    destruct (Delete_synced st c k Hw He Hc Hp) as (Hf' & Hk' & Hp' & Hw' & He').
    cbn [exec]. split.
    - split_and!; [done..|]. eexists. rewrite Hf', lookup_insert_eq. eauto.
    - exists (c ++ tombstone_bytes (list_ascii_of_string k)), (blen c).
      rewrite Hf', Hk', !lookup_insert_eq. unfold blen.
      split_and!; [done..|lia|].
      rewrite Nat2Z.id, lookup_app_r, Nat.sub_diag by lia. done. }
  assert (Hst' : st' = run cs (exec io_ok (DEL k) st)).
  { unfold st', run. cbn [foldl]. by rewrite main_step_calm. }
  destruct Hdel as [Hs1 Ht1].
  destruct (run_calm_tombstone k cs _ Hs1 Ht1 Hcalm Hno) as [Hs2 Ht2].
  rewrite <- Hst' in Hs2, Ht2. split; [by apply Get_tombstone|].
  intros t1 v Hlk Hlv Hle'. rewrite main_step_calm by done.
  destruct Hs2 as (Hw & He & c & Hc & Hp).
  destruct (put_synced st' c k v Hw He Hc Hp) as (Hf' & Hk' & _).
  apply (Get_entry k v _ c []); [| |done..].
  - cbn [exec]. rewrite Hk'. apply lookup_insert_eq.
  - cbn [exec]. rewrite Hf', lookup_insert_eq, app_nil_r. done.
Qed.

Lemma delete_reported_until_put_witness :
  Get "k" (run [(1, DEL "k"); (2, PUT "b" "1"); (3, GET "k")] empty_store)
  = GetDeleted
  ∧ Get "k" (main_step io_ok 4 (PUT "k" "v")
               (run [(1, DEL "k"); (2, PUT "b" "1"); (3, GET "k")] empty_store))
    = GetValue "v".
Proof.
  assert (Hs : synced empty_store).
  { split_and!; [reflexivity..|]. exists []. split; reflexivity. }
  assert (Hc : calm [(1, DEL "k"); (2, PUT "b" "1"); (3, GET "k")] empty_store).
  { vm_compute. repeat split; discriminate. }
  assert (Hn : ∀ t v, (t, PUT "k" v) ∉ [(2, PUT "b" "1"); (3, GET "k")]).
  { intros t v Hin. repeat (apply elem_of_cons in Hin as [Hin|Hin]; [discriminate|]).
    by apply elem_of_nil in Hin. }
  destruct (delete_reported_until_put empty_store "k" 1
              [(2, PUT "b" "1"); (3, GET "k")] Hs Hc Hn) as [H1 H2].
  split; [exact H1|].
  apply H2; [vm_compute; reflexivity.. | vm_compute; discriminate].
Defined.

(** ** The record codec *)

Lemma be_decode_bound bs : 0 ≤ be_decode bs < 256 ^ Z.of_nat (length bs).
Proof.
  unfold be_decode.
  assert (H : ∀ acc n, 0 ≤ acc < 256 ^ n → 0 ≤ n →
              0 ≤ fold_left (λ acc b, acc * 256 + Z_of_byte b) bs acc
              < 256 ^ (n + Z.of_nat (length bs))).
  { induction bs as [|b bs IH]; intros acc n Hacc Hn; simpl.
    - by rewrite Z.add_0_r.
    - replace (n + Z.of_nat (S (length bs)))
        with ((n + 1) + Z.of_nat (length bs)) by lia.
      apply IH; [|lia]. rewrite Z.pow_add_r, Z.pow_1_r by lia.
      assert (0 ≤ Z_of_byte b < 256).
      { unfold Z_of_byte. pose proof (N_ascii_bounded b). lia. }
      nia. }
  specialize (H 0 0). rewrite Z.add_0_l in H. apply H; simpl; lia.
Qed.

Lemma read_full_Some n r b r' :
  read_full n r = Some (b, r') → r = b ++ r' ∧ length b = n.
Proof.
  unfold read_full. case_decide; [|done]. intros [= <- <-].
  split; [by rewrite take_drop | by rewrite length_take_le].
Qed.

Lemma read_u32_Some r z r' :
  read_u32 r = Some (z, r') → 0 ≤ z < 2 ^ 32 ∧ (length r = 4 + length r')%nat.
Proof.
  unfold read_u32. destruct (read_full 4 r) as [[b r1]|] eqn:Hr; [|done].
  cbn [mbind option_bind]. intros [= <- <-].
  apply read_full_Some in Hr as [-> Hb]. split.
  - pose proof (be_decode_bound b) as Hbd. rewrite Hb in Hbd. simpl in Hbd. lia.
  - rewrite length_app. lia.
Qed.

Lemma read_full_0 r : read_full 0 r = Some ([], r).
Proof. unfold read_full. rewrite decide_True by lia. by rewrite take_0, drop_0. Qed.

Lemma length_string_of_bytes b :
  String.length (string_of_list_ascii b) = length b.
Proof. induction b; simpl; congruence. Qed.

Lemma decode_record_bytes r rest :
  wf_record r → decode_record (record_bytes r ++ rest) = Some (r, rest).
Proof.
  intros [Hk Hv]. destruct r as [key val|key]; cbn [record_bytes rkey] in *.
  - rewrite entry_bytes_app. cbn [decode_record].
    rewrite blen_bytes_of_string.
    rewrite read_u32_put by (unfold len in *; lia). cbn [mbind option_bind].
    rewrite read_u32_put by (unfold blen in *; lia). cbn [mbind option_bind].
    unfold len, blen. rewrite !Nat2Z.id.
    rewrite <- (length_bytes_of_string key) at 1.
    rewrite read_full_app. cbn [mbind option_bind].
    rewrite read_full_app. cbn [mbind option_bind].
    rewrite decide_True by done. by rewrite string_of_list_ascii_of_string.
  - rewrite tombstone_bytes_app. cbn [decode_record].
    rewrite blen_bytes_of_string.
    rewrite read_u32_put by (unfold len in *; lia). cbn [mbind option_bind].
    rewrite read_u32_put by lia. cbn [mbind option_bind].
    unfold len. rewrite !Nat2Z.id.
    rewrite <- (length_bytes_of_string key) at 1.
    rewrite read_full_app. cbn [mbind option_bind].
    change (Z.to_nat 0) with 0%nat.
    rewrite read_full_0. cbn [mbind option_bind].
    rewrite decide_False by done. rewrite decide_True by done.
    by rewrite string_of_list_ascii_of_string.
Qed.

Lemma log_bytes_cons r rs : log_bytes (r :: rs) = record_bytes r ++ log_bytes rs.
Proof. reflexivity. Qed.

Lemma record_bytes_length r : (9 ≤ length (record_bytes r))%nat.
Proof.
  destruct r; cbn [record_bytes]; unfold entry_bytes, tombstone_bytes;
    rewrite !length_app; unfold put_u32; rewrite !be_encode_length; simpl; lia.
Qed.

Lemma log_bytes_length rs : (length rs ≤ length (log_bytes rs))%nat.
Proof.
  induction rs as [|r rs IH]; [done|].
  rewrite log_bytes_cons, length_app. pose proof (record_bytes_length r).
  simpl. lia.
Qed.

Lemma record_bytes_cons r : ∃ a l, record_bytes r = a :: l.
Proof. destruct r; cbn; eauto. Qed.

Lemma decode_log_loop_cons fuel a l :
  decode_log_loop (S fuel) (a :: l)
  = '(x, r') ← decode_record (a :: l);
    xs ← decode_log_loop fuel r'; Some (x :: xs).
Proof. reflexivity. Qed.

Lemma decode_log_loop_bytes fuel rs :
  Forall wf_record rs → (length rs < fuel)%nat →
  decode_log_loop fuel (log_bytes rs) = Some rs.
Proof.
  revert fuel. induction rs as [|r rs IH]; intros fuel Hwf Hfuel.
  - destruct fuel; [lia|done].
  - destruct fuel as [|fuel]; [simpl in Hfuel; lia|].
    apply Forall_cons in Hwf as [Hr Hwf]. rewrite log_bytes_cons.
    destruct (record_bytes_cons r) as (a & l & Hal).
    assert (Heq : record_bytes r ++ log_bytes rs = a :: (l ++ log_bytes rs))
      by (by rewrite Hal).
    rewrite Heq, decode_log_loop_cons, <- Heq.
    rewrite decode_record_bytes by done. cbn [mbind option_bind].
    rewrite IH by (done || simpl in Hfuel; lia). done.
Qed.

Lemma decode_log_bytes rs :
  Forall wf_record rs → decode_log (log_bytes rs) = Some rs.
Proof.
  intros Hwf. apply decode_log_loop_bytes; [done|].
  pose proof (log_bytes_length rs). lia.
Qed.

(** ** The read loop of merge on well-formed logs *)

Lemma merge_loop_cons fuel flag r0 latest :
  merge_loop (S fuel) (flag :: r0) latest
  = '(keyLen, r1) ← read_u32 r0;
    '(valLen, r2) ← read_u32 r1;
    '(keyBuf, r3) ← read_full (Z.to_nat keyLen) r2;
    let keyStr := TrimSpace (string_of_list_ascii keyBuf) in
    if decide (is_Some (latest !! keyStr)) then
      merge_loop fuel
        (if decide (flag = flagNormal ∧ 0 < valLen)
         then drop (Z.to_nat valLen) r3 else r3)
        latest
    else if decide (flag = flagTombstone) then
      merge_loop fuel r3 (<[keyStr := mkEntry [] true]> latest)
    else
      '(valueBuf, r4) ← read_full (Z.to_nat valLen) r3;
      merge_loop fuel r4 (<[keyStr := mkEntry valueBuf false]> latest).
Proof. reflexivity. Qed.

Lemma merge_loop_record fuel r rest latest :
  wf_record r →
  merge_loop (S fuel) (record_bytes r ++ rest) latest
  = merge_loop fuel rest (merge_record latest r).
Proof.
  intros [Hk Hv]. unfold merge_record.
  destruct r as [key val|key]; cbn [record_bytes rkey entry_of] in *.
  - rewrite entry_bytes_app, merge_loop_cons, blen_bytes_of_string.
    rewrite read_u32_put by (unfold len in *; lia). cbn [mbind option_bind].
    rewrite read_u32_put by (unfold blen in *; lia). cbn [mbind option_bind].
    unfold len. rewrite Nat2Z.id.
    rewrite <- (length_bytes_of_string key) at 1.
    rewrite read_full_app. cbn [mbind option_bind]. cbv zeta.
    rewrite string_of_list_ascii_of_string.
    destruct (latest !! TrimSpace key) as [e|] eqn:He.
    + rewrite decide_True by eauto. f_equal.
      case_decide as Hd; [|destruct val; [done|]].
      * unfold blen. by rewrite Nat2Z.id, drop_app_length.
      * exfalso. apply Hd. split; [done|]. unfold blen. simpl. lia.
    + rewrite decide_False by (by intros [? ?]).
      rewrite decide_False by done.
      unfold blen. rewrite Nat2Z.id, read_full_app. done.
  - rewrite tombstone_bytes_app, merge_loop_cons, blen_bytes_of_string.
    rewrite read_u32_put by (unfold len in *; lia). cbn [mbind option_bind].
    rewrite read_u32_put by lia. cbn [mbind option_bind].
    unfold len. rewrite Nat2Z.id.
    rewrite <- (length_bytes_of_string key) at 1.
    rewrite read_full_app. cbn [mbind option_bind]. cbv zeta.
    rewrite string_of_list_ascii_of_string.
    destruct (latest !! TrimSpace key) as [e|] eqn:He.
    + rewrite decide_True by eauto.
      by rewrite (decide_False (P := _ ∧ _)) by (by intros [? _]).
    + rewrite decide_False by (by intros [? ?]).
      by rewrite decide_True.
Qed.

Lemma merge_loop_log fuel rs latest :
  Forall wf_record rs → (length rs < fuel)%nat →
  merge_loop fuel (log_bytes rs) latest = Some (merge_records rs latest).
Proof.
  revert fuel latest. induction rs as [|r rs IH]; intros fuel latest Hwf Hfuel.
  - destruct fuel; [lia|done].
  - destruct fuel as [|fuel]; [simpl in Hfuel; lia|].
    apply Forall_cons in Hwf as [Hr Hwf].
    rewrite log_bytes_cons, merge_loop_record by done.
    apply IH; [done | simpl in Hfuel; lia].
Qed.

Lemma merge_records_app rs1 rs2 latest :
  merge_records (rs1 ++ rs2) latest = merge_records rs2 (merge_records rs1 latest).
Proof. unfold merge_records. by rewrite foldl_app. Qed.

Lemma merge_files_loop_logs fs paths content latest :
  (∀ p, p ∈ paths →
        fs !! p = Some (log_bytes (content p)) ∧ Forall wf_record (content p)) →
  merge_files_loop fs paths latest
  = Some (merge_records (paths ≫= content) latest).
Proof.
  revert latest. induction paths as [|p paths IH]; intros latest Hc; [done|].
  destruct (Hc p) as [Hp Hwf]; [by left|].
  cbn [merge_files_loop]. rewrite Hp. cbn [mbind option_bind].
  rewrite merge_loop_log; [|done|pose proof (log_bytes_length (content p)); lia].
  cbn [mbind option_bind]. rewrite IH by (intros; apply Hc; by right).
  by rewrite bind_cons, merge_records_app.
Qed.

(** The table built by the read loop: the first record met for a trimmed
    key stays. *)
Lemma merge_records_lookup rs latest k :
  merge_records rs latest !! k
  = match latest !! k with
    | Some e => Some e
    | None => entry_of <$> find (λ r, bool_decide (TrimSpace (rkey r) = k)) rs
    end.
Proof.
  revert latest. induction rs as [|r rs IH]; intros latest.
  - simpl. by destruct (latest !! k).
  - unfold merge_records in *. cbn [foldl find]. rewrite IH. unfold merge_record.
    case_bool_decide as Hk.
    + subst k. destruct (latest !! TrimSpace (rkey r)) as [e|] eqn:He.
      * by rewrite He.
      * by rewrite lookup_insert_eq.
    + destruct (latest !! TrimSpace (rkey r)) as [e|] eqn:He; [done|].
      by rewrite lookup_insert_ne.
Qed.

(** ** The output loop of merge *)

Lemma compact_fold (l : list (string * entry)) w size :
  (foldl (λ '(w, size) '(k, e),
            if tombstone e then (w, size)
            else writeEntry w size (list_ascii_of_string k) (value e))
         (w, size) l).1
  = w ++ log_bytes (omap (λ '(k, e), if tombstone e then None
                                     else Some (Normal k (value e))) l).
Proof.
  revert w size. induction l as [|[k e] l IH]; intros w size.
  - simpl. by rewrite app_nil_r.
  - cbn [foldl omap list_omap]. destruct (tombstone e).
    + by rewrite IH.
    + unfold writeEntry. rewrite IH, log_bytes_cons, app_assoc. done.
Qed.

Lemma compact_bytes latest size :
  (compact latest size).1 = log_bytes (live_records latest).
Proof. unfold compact, live_records. by rewrite compact_fold. Qed.

Lemma mergeFiles_ok paths st latest :
  merge_files_loop (files st) (newest_first paths) ∅ = Some latest →
  ∃ st', mergeFiles paths st = (st', None)
         ∧ files st' = <[compacted := log_bytes (live_records latest)]> (files st)
         ∧ keyDir st' = keyDir st ∧ f_pos st' = f_pos st
         ∧ w_on_f st' = w_on_f st ∧ w_err st' = w_err st.
Proof.
  intros Hl. unfold mergeFiles. rewrite Hl.
  pose proof (compact_bytes latest (activeFileSize st)) as Hc.
  destruct (compact latest (activeFileSize st)) as [w size]. simpl in Hc. subst w.
  eexists. split; [done|]. simpl. done.
Qed.

Lemma elem_of_live_records latest k v :
  Normal k v ∈ live_records latest ↔ latest !! k = Some (mkEntry v false).
Proof.
  unfold live_records. rewrite list_elem_of_omap. split.
  - intros [[k' e] [Hin Hl]]. apply elem_of_map_to_list in Hin.
    destruct e as [val [|]]; simpl in Hl; [done|]. by injection Hl as -> ->.
  - intros Hl. exists (k, mkEntry v false). split; [|done].
    by apply elem_of_map_to_list.
Qed.

Lemma live_records_normal latest : Forall is_normal (live_records latest).
Proof.
  unfold live_records. apply Forall_forall. intros r Hr.
  apply list_elem_of_omap in Hr as [[k e] [_ Hl]].
  destruct (tombstone e); [done|]. by injection Hl as <-.
Qed.

Lemma live_records_keys (l : list (string * entry)) :
  NoDup l.*1 →
  NoDup (rkey <$> omap (λ '(k, e), if tombstone e then None
                                   else Some (Normal k (value e))) l).
Proof.
  induction l as [|[k e] l IH]; intros Hnd; [constructor|].
  apply NoDup_cons in Hnd as [Hk Hnd]. cbn [omap list_omap].
  destruct (tombstone e); [by apply IH|].
  cbn [fmap list_fmap rkey]. apply NoDup_cons. split; [|by apply IH].
  intros Hin. apply Hk. apply list_elem_of_fmap in Hin as [r [Hr Hin]].
  apply list_elem_of_omap in Hin as [[k' e'] [Hin Hl]].
  destruct (tombstone e'); [done|]. injection Hl as <-. simpl in Hr. subst k'.
  apply list_elem_of_fmap. by exists (k, e').
Qed.

Lemma live_records_NoDup latest : NoDup (rkey <$> live_records latest).
Proof. apply live_records_keys, NoDup_fst_map_to_list. Qed.

(** ** Order of the input files *)

Lemma sort_fold_sorted {A} (less : A → A → bool) xs acc :
  Sorted (λ a b, less b a = false) xs →
  (∀ y x, head acc = Some y → head xs = Some x → less x y = false) →
  fold_left (λ acc x, sift less x acc) xs acc = rev xs ++ acc.
Proof.
  intros Hs. revert acc. induction Hs as [|x xs Hs IH Hhd]; intros acc Hacc; [done|].
  cbn [fold_left]. assert (Hsift : sift less x acc = x :: acc).
  { destruct acc as [|y acc]; [done|]. simpl. by rewrite (Hacc y x). }
  rewrite Hsift, IH.
  - simpl. by rewrite <- app_assoc.
  - intros y x' [= <-] Hx'. destruct Hhd as [|x'' xs' Hr]; [done|].
    injection Hx' as <-. done.
Qed.

Lemma newest_first_sorted paths :
  Sorted (λ a b, extractTimestamp b ≤ extractTimestamp a) paths →
  newest_first paths = paths.
Proof.
  intros Hs. unfold newest_first, sort_slice.
  rewrite sort_fold_sorted; [by rewrite app_nil_r, rev_involutive| |done].
  induction Hs as [|x xs Hs IH Hhd]; constructor; [done|].
  destruct Hhd as [|y ys Hr]; constructor.
  destruct (Z.gtb_spec (extractTimestamp y) (extractTimestamp x)); [lia|done].
Qed.

(** ** Finding the newest record *)

Section find_facts.
Context {B : Type} `{EqDecision B} (f : record → B) (k : B).

Lemma find_app_first (l1 l2 : list record) :
  find (λ r, bool_decide (f r = k)) (l1 ++ l2)
  = match find (λ r, bool_decide (f r = k)) l1 with
    | Some r => Some r
    | None => find (λ r, bool_decide (f r = k)) l2
    end.
Proof.
  induction l1 as [|x l1 IH]; [done|]. simpl. by case_bool_decide.
Qed.

Lemma find_elem (l : list record) r :
  find (λ r, bool_decide (f r = k)) l = Some r → r ∈ l ∧ f r = k.
Proof.
  intros [Hin Hb]%find_some. split; [by apply list_elem_of_In|].
  by apply bool_decide_eq_true in Hb.
Qed.

Lemma find_None_elem (l : list record) r :
  find (λ r, bool_decide (f r = k)) l = None → r ∈ l → f r ≠ k.
Proof.
  intros Hn Hin%list_elem_of_In. pose proof (find_none _ _ Hn r Hin) as Hb.
  by apply bool_decide_eq_false in Hb.
Qed.

Lemma find_unique (l : list record) r :
  NoDup (f <$> l) → r ∈ l → f r = k →
  find (λ r, bool_decide (f r = k)) l = Some r.
Proof.
  induction l as [|x l IH]; intros Hnd Hin Hk.
  - by apply elem_of_nil in Hin.
  - rewrite fmap_cons in Hnd. apply NoDup_cons in Hnd as [Hx Hnd]. simpl.
    apply elem_of_cons in Hin as [->|Hin].
    + by rewrite bool_decide_eq_true_2.
    + case_bool_decide as Hxk; [|by apply IH].
      exfalso. apply Hx. rewrite Hxk, <- Hk. by apply list_elem_of_fmap_2.
Qed.

Lemma find_reverse_unique (l : list record) :
  NoDup (f <$> l) →
  find (λ r, bool_decide (f r = k)) (reverse l)
  = find (λ r, bool_decide (f r = k)) l.
Proof.
  intros Hnd.
  destruct (find (λ r, bool_decide (f r = k)) l) as [r|] eqn:Hl.
  - apply find_elem in Hl as [Hin Hk]. apply find_unique; [|by apply elem_of_reverse|done].
    by rewrite fmap_reverse, reverse_Permutation.
  - destruct (find (λ r, bool_decide (f r = k)) (reverse l)) as [r|] eqn:Hr; [|done].
    apply find_elem in Hr as [Hin Hk]. rewrite elem_of_reverse in Hin.
    by destruct (find_None_elem l r Hl Hin).
Qed.

Lemma find_files_reverse (paths : list string) (content : string → list record) :
  (∀ p, p ∈ paths → NoDup (f <$> content p)) →
  find (λ r, bool_decide (f r = k)) ((content <$> paths) ≫= reverse)
  = find (λ r, bool_decide (f r = k)) (paths ≫= content).
Proof.
  induction paths as [|p paths IH]; intros Hnd; [done|].
  rewrite fmap_cons, !bind_cons, !find_app_first.
  rewrite find_reverse_unique by (apply Hnd; by left).
  rewrite IH; [done|]. intros p' Hp'. apply Hnd. by right.
Qed.

End find_facts.

(** ** Trimming *)

Lemma drop_run_length seqs n l : (length (drop_run seqs n l) ≤ length l)%nat.
Proof.
  revert l. induction n as [|n IH]; intros l; cbn [drop_run]; [done|].
  destruct (find _ seqs) as [w|]; [|done].
  specialize (IH (drop (length w) l)). rewrite length_drop in IH. lia.
Qed.

Lemma len_TrimSpace s : len (TrimSpace s) ≤ len s.
Proof.
  unfold len, TrimSpace, trim, trim_right, trim_left.
  rewrite length_string_of_bytes, length_rev.
  set (l := list_ascii_of_string s).
  pose proof (drop_run_length white_space (length l) l) as H1.
  pose proof (drop_run_length (@rev ascii <$> white_space)
                (length (drop_run white_space (length l) l))
                (rev (drop_run white_space (length l) l))) as H2.
  rewrite length_rev in H2.
  pose proof (length_bytes_of_string s) as H3. fold l in H3. lia.
Qed.

Lemma find_fmap_existsb {A B} (f : B → bool) (g : A → B) (l : list A) :
  existsb (λ x, f (g x)) l = false → find f (g <$> l) = None.
Proof.
  induction l as [|x l IH]; [done|]. cbn [existsb fmap list_fmap find].
  destruct (f (g x)); [done|]. exact IH.
Qed.

Lemma find_existsb {A} (f : A → bool) (l : list A) :
  existsb f l = false → find f l = None.
Proof.
  induction l as [|x l IH]; [done|]. cbn [existsb find].
  destruct (f x); [done|]. exact IH.
Qed.

Lemma drop_run_none seqs n l :
  find (λ w, starts_with w l) seqs = None → drop_run seqs n l = l.
Proof. intros Hno. destruct n as [|n]; [done|]. cbn [drop_run]. by rewrite Hno. Qed.

Lemma TrimSpace_id s :
  blank_start (list_ascii_of_string s) = false →
  blank_end (list_ascii_of_string s) = false →
  TrimSpace s = s.
Proof.
  intros Hs He. unfold TrimSpace, trim, trim_right, trim_left.
  rewrite (drop_run_none white_space) by (by apply find_existsb).
  rewrite drop_run_none
    by (by apply (find_fmap_existsb (λ w, starts_with w _) (@rev ascii))).
  rewrite rev_involutive. apply string_of_list_ascii_of_string.
Qed.

(** [length l] turns are enough: what [drop_run] returns starts with
    none of the sequences. *)
Lemma existsb_find {A} (f : A → bool) (l : list A) :
  find f l = None → existsb f l = false.
Proof.
  induction l as [|x l IH]; [done|]. cbn [existsb find].
  destruct (f x); [done|]. exact IH.
Qed.

Lemma drop_run_done seqs n l :
  [] ∉ seqs → (length l ≤ n)%nat →
  find (λ w, starts_with w (drop_run seqs n l)) seqs = None.
Proof.
  intros Hne. revert l. induction n as [|n IH]; intros l Hlen.
  - destruct l; [|simpl in Hlen; lia]. cbn [drop_run].
    clear Hlen. induction seqs as [|w seqs IHs]; [done|].
    cbn [find]. destruct w as [|a w]; [destruct Hne; by left|].
    cbn [starts_with]. apply IHs. intros Hin. apply Hne. by right.
  - cbn [drop_run].
    destruct (find (λ w, starts_with w l) seqs) as [w|] eqn:Hf; [|exact Hf].
    apply IH. apply find_some in Hf as [Hin _]. rewrite length_drop.
    destruct w as [|a w]; [destruct Hne; by apply list_elem_of_In|].
    simpl. lia.
Qed.

Lemma white_space_nonempty :
  ([] ∉ white_space) ∧ ([] ∉ (@rev ascii) <$> white_space).
Proof.
  split; vm_compute; intros H;
    repeat (apply elem_of_cons in H as [H|H]; [discriminate|]);
    by apply elem_of_nil in H.
Qed.

Lemma trim_left_done l : blank_start (trim_left l) = false.
Proof.
  unfold blank_start, trim_left.
  apply existsb_find, drop_run_done; [apply white_space_nonempty|done].
Qed.

Lemma trim_right_done l : blank_end (trim_right l) = false.
Proof.
  unfold blank_end, trim_right. rewrite rev_involutive.
  pose proof (drop_run_done (@rev ascii <$> white_space) (length l) (rev l)
                (proj2 white_space_nonempty)) as H.
  rewrite length_rev in H. specialize (H (le_n _)).
  set (r := drop_run _ _ _) in *. clearbody r.
  induction white_space as [|w ws IH]; [done|].
  cbn [existsb fmap list_fmap find] in *.
  destruct (starts_with (rev w) r); [done|]. by apply IH.
Qed.

(** ** Merge correctness *)

Lemma merged_table (st : store) (paths : list string)
    (content : string → list record) :
  (∀ p, p ∈ paths →
        files st !! p = Some (log_bytes (content p))
        ∧ Forall wf_record (content p)) →
  merge_files_loop (files st) (newest_first paths) ∅
  = Some (merge_records (newest_first paths ≫= content) ∅).
Proof.
  intros Hc. apply merge_files_loop_logs. intros p Hp. apply Hc.
  by apply elem_of_sort_slice in Hp.
Qed.

Lemma merged_table_lookup (rs : list record) k :
  merge_records rs ∅ !! k
  = entry_of <$> find (λ r, bool_decide (TrimSpace (rkey r) = k)) rs.
Proof. by rewrite merge_records_lookup, lookup_empty. Qed.

Lemma merged_live_wf (rs : list record) :
  Forall wf_record rs → Forall wf_record (live_records (merge_records rs ∅)).
Proof.
  intros Hwf. apply Forall_forall. intros r Hr.
  pose proof (live_records_normal (merge_records rs ∅)) as Hn.
  rewrite Forall_forall in Hn. specialize (Hn r Hr).
  destruct r as [k v|]; [|done].
  apply elem_of_live_records in Hr. rewrite merged_table_lookup in Hr.
  destruct (find _ rs) as [r0|] eqn:Hf; [|done].
  apply find_elem in Hf as [Hin Hk]. rewrite Forall_forall in Hwf.
  destruct (Hwf r0 Hin) as [Hlk Hlv]. injection Hr as Hr.
  destruct r0 as [k0 v0|k0]; simpl in Hr; [|done]. injection Hr as ->.
  simpl in *. subst k. split; [|done]. simpl.
  pose proof (len_TrimSpace k0). lia.
Qed.

Lemma all_records_wf (paths : list string) (content : string → list record) :
  (∀ p, p ∈ paths → Forall wf_record (content p)) →
  Forall wf_record (paths ≫= content).
Proof.
  intros Hc. apply Forall_forall. intros r Hr.
  apply list_elem_of_bind in Hr as (p & Hr & Hp).
  specialize (Hc p Hp). rewrite Forall_forall in Hc. by apply Hc.
Qed.

(** With keys compared as they are: the output gives ["a"] the value of
    the record of [" a"], while the newest record of ["a"] has another
    value. *)
Lemma merge_blank_key_counterexample :
  ¬ merge_newest_wins id (store_of blank_key_dir)
      ["data_2.log"; "data_1.log"] blank_key_content.
Proof.
  intros (st' & c & out & Hm & Hc & Hd & _ & _ & Hiff).
  vm_compute in Hm. injection Hm as <-.
  vm_compute in Hc. injection Hc as <-.
  vm_compute in Hd. injection Hd as <-.
  destruct (proj1 (Hiff "a" ["1"%char])) as [k0 Hk0]; [by left|].
  vm_compute in Hk0. discriminate.
Qed.

(** Within one file the first record met for a key stays, although it is
    the oldest: two puts of ["a"] in one file leave the first value. *)
Lemma merge_keeps_first_in_file :
  (files (mergeFiles ["data_1.log"] (store_of rewritten_key_dir)).1 !! compacted)
    ≫= decode_log
  = Some [Normal "a" ["1"%char]].
Proof. vm_compute. reflexivity. Qed.

(** White space is that of Unicode: a newer record whose key is ["a"]
    after a no-break space hides the older record of ["a"], and is
    written with the key ["a"]. *)
Lemma merge_trims_no_break_space :
  (files (mergeFiles ["data_2.log"; "data_1.log"] (store_of nbsp_key_dir)).1
     !! compacted) ≫= decode_log
  = Some [Normal "a" ["1"%char]].
Proof. vm_compute. reflexivity. Qed.

(** C1, amended: for data files listed newest to oldest, each a sequence
    of records, none of which holds two records whose keys are equal
    after trimming white space, the merge succeeds; its output holds
    normal records only (no tombstone), no key twice, and exactly the
    trimmed keys whose newest record is normal, each with the value of
    that newest record, keys being compared after trimming; a key whose
    newest record is a tombstone is absent. *)
Theorem merge_newest_wins_on_trimmed_keys (st : store) (paths : list string)
    (content : string → list record) :
  (∀ p, p ∈ paths →
        files st !! p = Some (log_bytes (content p))
        ∧ Forall wf_record (content p)) →
  Sorted (λ a b, extractTimestamp b ≤ extractTimestamp a) paths →
  (∀ p, p ∈ paths → NoDup ((λ r, TrimSpace (rkey r)) <$> content p)) →
  merge_newest_wins TrimSpace st paths content.
Proof.
  intros Hc Hs Hnd.
  destruct (mergeFiles_ok paths st _ (merged_table st paths content Hc))
    as (st' & Hm & Hf & _).
  rewrite newest_first_sorted in Hf by done.
  assert (Hwf : Forall wf_record (paths ≫= content)).
  { apply all_records_wf. intros p Hp. by apply Hc. }
  exists st', (log_bytes (live_records (merge_records (paths ≫= content) ∅))),
    (live_records (merge_records (paths ≫= content) ∅)).
  split_and!.
  - done.
  - by rewrite Hf, lookup_insert_eq.
  - by apply decode_log_bytes, merged_live_wf.
  - apply live_records_normal.
  - apply live_records_NoDup.
  - intros k v. rewrite elem_of_live_records, merged_table_lookup.
    unfold newest_by.
    rewrite (find_files_reverse (λ r, TrimSpace (rkey r)) k paths content Hnd).
    destruct (find _ (paths ≫= content)) as [[k0 v0|k0]|]; simpl; split.
    + intros [= ->]. eauto.
    + intros [k1 [= _ ->]]. done.
    + done.
    + by intros [k1 ?].
    + done.
    + by intros [k1 ?].
Qed.

Lemma merge_newest_wins_on_trimmed_keys_witness :
  merge_newest_wins TrimSpace (store_of blank_key_dir)
    ["data_2.log"; "data_1.log"] blank_key_content.
Proof.
  apply merge_newest_wins_on_trimmed_keys.
  - intros p Hp.
    repeat (apply elem_of_cons in Hp as [->|Hp]);
      [| |by apply elem_of_nil in Hp];
      (split; [reflexivity|]); repeat constructor; vm_compute; done.
  - repeat constructor. vm_compute. discriminate.
  - intros p Hp.
    repeat (apply elem_of_cons in Hp as [->|Hp]);
      [| |by apply elem_of_nil in Hp];
      vm_compute; repeat constructor; by intros ?%elem_of_nil.
Defined.

(** ** Keys in merge *)

(** C6, amended: [PUT] and [Delete] write the key bytes as given and key
    the keydir by them; merge keys its newest-wins table and its output
    by the key read from the input with leading and trailing white space
    removed ([strings.TrimSpace]): the trimmed key of every input record
    is in the table, every key of the table and of the output is the
    trimmed key of an input record, and trimming leaves a key that
    neither starts nor ends with a white-space character as it is. *)
Theorem merge_keys_are_trimmed :
  (∀ (st : store) (paths : list string) (content : string → list record),
     (∀ p, p ∈ paths →
           files st !! p = Some (log_bytes (content p))
           ∧ Forall wf_record (content p)) →
     ∃ latest st',
       merge_files_loop (files st) (newest_first paths) ∅ = Some latest
       ∧ mergeFiles paths st = (st', None)
       ∧ files st' !! compacted = Some (log_bytes (live_records latest))
       ∧ (∀ p r, p ∈ paths → r ∈ content p →
                 is_Some (latest !! TrimSpace (rkey r)))
       ∧ (∀ k, is_Some (latest !! k) →
               ∃ p r, p ∈ paths ∧ r ∈ content p ∧ k = TrimSpace (rkey r))
       ∧ (∀ k v, Normal k v ∈ live_records latest →
                 ∃ p r, p ∈ paths ∧ r ∈ content p ∧ k = TrimSpace (rkey r)))
  ∧ (∀ key,
       blank_start (list_ascii_of_string key) = false →
       blank_end (list_ascii_of_string key) = false →
       TrimSpace key = key)
  ∧ (∀ st c key val,
       synced st → files st !! active = Some c →
       files (put io_ok key val st) !! active
       = Some (c ++ record_bytes (Normal key (list_ascii_of_string val)))
       ∧ is_Some (keyDir (put io_ok key val st) !! key)
       ∧ files (Delete io_ok key st).1 !! active
         = Some (c ++ record_bytes (Tombstone key))
       ∧ is_Some (keyDir (Delete io_ok key st).1 !! key)).
Proof.
  split_and!.
  - intros st paths content Hc.
    pose proof (merged_table st paths content Hc) as Hl.
    destruct (mergeFiles_ok paths st _ Hl) as (st' & Hm & Hf & _).
    set (all := newest_first paths ≫= content) in *.
    assert (Hall : ∀ r, r ∈ all ↔ ∃ p, p ∈ paths ∧ r ∈ content p).
    { intros r. unfold all. rewrite list_elem_of_bind. split.
      - intros (p & Hr & Hp). apply elem_of_sort_slice in Hp. eauto.
      - intros (p & Hp & Hr). exists p. split; [done|].
        by apply elem_of_sort_slice. }
    assert (Hkeys : ∀ k, is_Some (merge_records all ∅ !! k) →
              ∃ p r, p ∈ paths ∧ r ∈ content p ∧ k = TrimSpace (rkey r)).
    { intros k [e He]. rewrite merged_table_lookup in He.
      destruct (find _ all) as [r|] eqn:Hfind; [|done].
      apply find_elem in Hfind as [Hin Hk]. apply Hall in Hin as (p & Hp & Hr).
      by exists p, r. }
    exists (merge_records all ∅), st'. split_and!; [done..| | | |].
    + by rewrite Hf, lookup_insert_eq.
    + intros p r Hp Hr. rewrite merged_table_lookup.
      destruct (find _ all) as [r0|] eqn:Hfind; [by eexists|].
      destruct (find_None_elem (λ r, TrimSpace (rkey r)) _ all r Hfind); [|done].
      apply Hall. eauto.
    + done.
    + intros k v Hin. apply elem_of_live_records in Hin. apply Hkeys. eauto.
  - apply TrimSpace_id.
  - intros st c key val (Hw & He & c' & Hc' & Hp) Hc.
    rewrite Hc in Hc'. injection Hc' as <-.
    destruct (put_synced st c key val Hw He Hc Hp) as (Hf1 & Hk1 & _).
    destruct (Delete_synced st c key Hw He Hc Hp) as (Hf2 & Hk2 & _).
    rewrite Hf1, Hk1, Hf2, Hk2, !lookup_insert_eq. split_and!; by eauto.
Qed.

Lemma merge_keys_are_trimmed_witness :
  ∃ latest st',
    merge_files_loop blank_key_dir (newest_first ["data_2.log"; "data_1.log"]) ∅
    = Some latest
    ∧ mergeFiles ["data_2.log"; "data_1.log"] (store_of blank_key_dir) = (st', None)
    ∧ is_Some (latest !! "a").
Proof.
  destruct (proj1 merge_keys_are_trimmed (store_of blank_key_dir)
              ["data_2.log"; "data_1.log"] blank_key_content)
    as (latest & st' & Hl & Hm & _ & Hin & _).
  - intros p Hp.
    repeat (apply elem_of_cons in Hp as [->|Hp]);
      [| |by apply elem_of_nil in Hp];
      (split; [reflexivity|]); repeat constructor; vm_compute; done.
  - exists latest, st'. split_and!; [exact Hl | exact Hm |].
    apply (Hin "data_2.log" (Normal " a" ["1"%char])); [by left | by left].
Defined.

(** ** What merge leaves for the scan of rotation *)

Lemma bounded_insert latest k e :
  bounded latest → len k < 2 ^ 32 → blen (value e) < 2 ^ 32 →
  bounded (<[k := e]> latest).
Proof.
  intros Hb Hk He k' e' Hl. destruct (decide (k = k')) as [<-|Hne].
  - rewrite lookup_insert_eq in Hl. by injection Hl as <-.
  - rewrite lookup_insert_ne in Hl by done. by eapply Hb.
Qed.

Lemma merge_loop_bounded fuel r latest latest' :
  merge_loop fuel r latest = Some latest' → bounded latest → bounded latest'.
Proof.
  revert r latest. induction fuel as [|fuel IH]; intros r latest Hm Hb; [done|].
  destruct r as [|flag r0]; [by injection Hm as <-|].
  rewrite merge_loop_cons in Hm.
  destruct (read_u32 r0) as [[keyLen r1]|] eqn:H1; [|done].
  cbn [mbind option_bind] in Hm.
  destruct (read_u32 r1) as [[valLen r2]|] eqn:H2; [|done].
  cbn [mbind option_bind] in Hm.
  destruct (read_full (Z.to_nat keyLen) r2) as [[keyBuf r3]|] eqn:H3; [|done].
  cbn [mbind option_bind] in Hm. cbv zeta in Hm.
  apply read_u32_Some in H1 as [Hkl _]. apply read_u32_Some in H2 as [Hvl _].
  apply read_full_Some in H3 as [_ Hkb].
  assert (Hkey : len (TrimSpace (string_of_list_ascii keyBuf)) < 2 ^ 32).
  { pose proof (len_TrimSpace (string_of_list_ascii keyBuf)) as Hle.
    unfold len in Hle at 2. rewrite length_string_of_bytes, Hkb in Hle. lia. }
  case_decide; [by eapply IH|].
  case_decide.
  - eapply IH; [done|]. by apply bounded_insert.
  - destruct (read_full (Z.to_nat valLen) r3) as [[valueBuf r4]|] eqn:H4; [|done].
    cbn [mbind option_bind] in Hm. apply read_full_Some in H4 as [_ Hvb].
    eapply IH; [done|]. apply bounded_insert; [done..|].
    unfold blen. simpl. rewrite Hvb. lia.
Qed.

Lemma merge_files_loop_bounded fs paths latest latest' :
  merge_files_loop fs paths latest = Some latest' →
  bounded latest → bounded latest'.
Proof.
  revert latest. induction paths as [|p paths IH]; intros latest Hm Hb.
  - by injection Hm as <-.
  - cbn [merge_files_loop] in Hm.
    destruct (fs !! p) as [c|]; cbn [mbind option_bind] in Hm; [|done].
    destruct (merge_loop (S (length c)) c latest) as [l1|] eqn:Hl;
      cbn [mbind option_bind] in Hm; [|done].
    eapply IH; [done|]. by eapply merge_loop_bounded.
Qed.

Lemma mergeFiles_inv paths st st' :
  mergeFiles paths st = (st', None) →
  ∃ latest,
    bounded latest
    ∧ files st' = <[compacted := log_bytes (live_records latest)]> (files st).
Proof.
  unfold mergeFiles.
  destruct (merge_files_loop _ _ ∅) as [latest|] eqn:Hl; [|done].
  pose proof (compact_bytes latest (activeFileSize st)) as Hc.
  destruct (compact latest (activeFileSize st)) as [w size]. simpl in Hc. subst w.
  intros [= <-]. exists latest. split; [|done].
  eapply merge_files_loop_bounded; [done|]. intros k e Hk.
  by rewrite lookup_empty in Hk.
Qed.

Lemma live_records_wf latest :
  bounded latest → Forall wf_record (live_records latest).
Proof.
  intros Hb. apply Forall_forall. intros r Hr.
  pose proof (live_records_normal latest) as Hn.
  rewrite Forall_forall in Hn. specialize (Hn r Hr).
  destruct r as [k v|]; [|done].
  apply elem_of_live_records in Hr. by apply Hb in Hr.
Qed.

(** ** The scan of the installed log *)

Lemma scan_loop_cons fuel off flag r0 ro :
  scan_loop (S fuel) off (flag :: r0) ro
  = '(keyLen, r1) ← read_u32 r0;
    '(valLen, r2) ← read_u32 r1;
    '(keyBuf, r3) ← read_full (Z.to_nat keyLen) r2;
    let keyStr := string_of_list_ascii keyBuf in
    scan_loop fuel (off + 1 + 4 + 4 + keyLen + valLen)
      (drop (Z.to_nat valLen) r3)
      (if decide (flag = flagNormal) then <[keyStr := off]> ro else ro).
Proof. reflexivity. Qed.

Lemma entry_bytes_length key val :
  blen (entry_bytes key val) = 1 + 4 + 4 + blen key + blen val.
Proof.
  unfold blen, entry_bytes. rewrite !length_app. unfold put_u32.
  rewrite !be_encode_length. simpl. lia.
Qed.

Lemma record_at_app pre r rest :
  wf_record r → record_at (pre ++ record_bytes r ++ rest) (blen pre) = Some r.
Proof.
  intros Hwf. unfold record_at, blen.
  destruct (Z.ltb_spec (Z.of_nat (length pre)) 0); [lia|].
  by rewrite Nat2Z.id, drop_app_length, decode_record_bytes.
Qed.

Lemma scan_loop_log fuel pre rs ro :
  Forall wf_record rs → Forall is_normal rs → (length rs < fuel)%nat →
  points_into (pre ++ log_bytes rs) ro →
  ∃ ro', scan_loop fuel (blen pre) (log_bytes rs) ro = Some ro'
         ∧ points_into (pre ++ log_bytes rs) ro'.
Proof.
  revert fuel pre ro.
  induction rs as [|r rs IH]; intros fuel pre ro Hwf Hn Hfuel Hp.
  - destruct fuel; [lia|]. by exists ro.
  - destruct fuel as [|fuel]; [simpl in Hfuel; lia|].
    apply Forall_cons in Hwf as [Hr Hwf]. apply Forall_cons in Hn as [Hrn Hn].
    destruct r as [key val|]; [|done]. destruct Hr as [Hk Hv]. simpl in Hk.
    rewrite log_bytes_cons in *. cbn [record_bytes] in *.
    set (c := pre ++ entry_bytes (list_ascii_of_string key) val ++ log_bytes rs) in *.
    rewrite entry_bytes_app, scan_loop_cons, blen_bytes_of_string.
    rewrite read_u32_put by (unfold len in *; lia). cbn [mbind option_bind].
    rewrite read_u32_put by (unfold blen in *; lia). cbn [mbind option_bind].
    replace (Z.to_nat (len key)) with (length (list_ascii_of_string key))
      by (unfold len; rewrite Nat2Z.id; apply length_bytes_of_string).
    rewrite read_full_app. cbn [mbind option_bind]. cbv zeta.
    rewrite string_of_list_ascii_of_string, decide_True by done.
    replace (Z.to_nat (blen val)) with (length val) by (unfold blen; lia).
    rewrite drop_app_length.
    specialize (IH fuel (pre ++ entry_bytes (list_ascii_of_string key) val)
                  (<[key := blen pre]> ro) Hwf Hn).
    replace (blen (pre ++ entry_bytes (list_ascii_of_string key) val))
      with (blen pre + 1 + 4 + 4 + len key + blen val) in IH.
    2:{ unfold blen at 3. rewrite length_app, Nat2Z.inj_add.
        fold (blen pre). fold (blen (entry_bytes (list_ascii_of_string key) val)).
        rewrite entry_bytes_length, blen_bytes_of_string. lia. }
    rewrite <- app_assoc in IH. fold c in IH. apply IH; [simpl in Hfuel; lia|].
    intros k off Hl. destruct (decide (key = k)) as [<-|Hne].
    + rewrite lookup_insert_eq in Hl. injection Hl as <-. split_and!.
      * unfold blen. lia.
      * unfold c, blen. rewrite !length_app.
        pose proof (record_bytes_length (Normal key val)) as H9.
        cbn [record_bytes] in H9. lia.
      * done.
      * exists val.
        by apply (record_at_app pre (Normal key val) (log_bytes rs)).
    + rewrite lookup_insert_ne in Hl by done. by apply Hp.
Qed.

Lemma scan_compacted latest realOffsets :
  bounded latest →
  let cc := log_bytes (live_records latest) in
  scan_loop (S (length cc)) 0 cc ∅ = Some realOffsets →
  points_into cc realOffsets.
Proof.
  intros Hb cc Hs.
  destruct (scan_loop_log (S (length cc)) [] (live_records latest) ∅)
    as (ro' & Hs' & Hp).
  - by apply live_records_wf.
  - apply live_records_normal.
  - pose proof (log_bytes_length (live_records latest)). fold cc in H. lia.
  - intros k off Hl. by rewrite lookup_empty in Hl.
  - change (blen []) with 0 in Hs'. fold cc in Hs'. simpl in Hp.
    rewrite Hs in Hs'. by injection Hs' as <-.
Qed.

(** ** The hint file codec *)

Lemma hint_entries_loop_cons fuel a r :
  hint_entries_loop (S fuel) (a :: r)
  = '(keyLen, r1) ← read_u32 (a :: r);
    let key := read_full_lax (Z.to_nat keyLen) r1 in
    let r2 := drop (Z.to_nat keyLen) r1 in
    '(off, r3) ← read_u64 r2;
    es ← hint_entries_loop fuel r3;
    Some ((string_of_list_ascii key, int64_of_u64 off) :: es).
Proof. reflexivity. Qed.

Lemma hint_entry_bytes_cons key off :
  ∃ a l, hint_entry_bytes key off = a :: l.
Proof. unfold hint_entry_bytes, put_u32. cbn. eauto. Qed.

Lemma hint_entry_bytes_length key off : (12 ≤ length (hint_entry_bytes key off))%nat.
Proof.
  unfold hint_entry_bytes, put_u32, put_u64.
  rewrite !length_app, !be_encode_length. lia.
Qed.

Lemma hint_list_length (l : list (string * Z)) :
  (length l ≤ length (l ≫= (λ '(key, off), hint_entry_bytes key off)))%nat.
Proof.
  induction l as [|[k off] l IH]; [done|].
  rewrite bind_cons, length_app. pose proof (hint_entry_bytes_length k off).
  simpl. lia.
Qed.

Lemma hint_entries_loop_bytes fuel (l : list (string * Z)) :
  Forall (λ e, len e.1 < 2 ^ 32 ∧ 0 ≤ e.2 < 2 ^ 63) l → (length l < fuel)%nat →
  hint_entries_loop fuel (l ≫= (λ '(key, off), hint_entry_bytes key off))
  = Some l.
Proof.
  revert fuel. induction l as [|[k off] l IH]; intros fuel Hl Hfuel.
  - destruct fuel; [lia|done].
  - destruct fuel as [|fuel]; [simpl in Hfuel; lia|].
    apply Forall_cons in Hl as [[Hk Hoff] Hl]. simpl in Hk, Hoff.
    rewrite bind_cons.
    set (rest := l ≫= (λ '(key, off), hint_entry_bytes key off)) in *.
    destruct (hint_entry_bytes_cons k off) as (a & t & Hat).
    assert (Heq : hint_entry_bytes k off ++ rest = a :: (t ++ rest))
      by (by rewrite Hat).
    rewrite Heq, hint_entries_loop_cons, <- Heq.
    unfold hint_entry_bytes. rewrite <- !app_assoc.
    rewrite read_u32_put by (unfold len in *; lia).
    cbn [mbind option_bind]. cbv zeta.
    replace (Z.to_nat (len k)) with (length (list_ascii_of_string k))
      by (unfold len; rewrite Nat2Z.id; apply length_bytes_of_string).
    rewrite read_full_lax_exact, drop_app_length.
    rewrite read_u64_put by lia. cbn [mbind option_bind].
    rewrite IH by (done || simpl in Hfuel; lia). cbn [mbind option_bind].
    rewrite string_of_list_ascii_of_string. unfold int64_of_u64.
    destruct (Z.ltb_spec off (2 ^ 63)); [done|lia].
Qed.

Lemma hint_entries_bytes (realOffsets : gmap string Z) :
  (∀ k off, realOffsets !! k = Some off → len k < 2 ^ 32 ∧ 0 ≤ off < 2 ^ 63) →
  hint_entries (hint_bytes realOffsets) = Some (map_to_list realOffsets).
Proof.
  intros Hb. unfold hint_entries, hint_bytes. apply hint_entries_loop_bytes.
  - apply Forall_forall. intros [k off] Hin. apply elem_of_map_to_list in Hin.
    by apply Hb.
  - pose proof (hint_list_length (map_to_list realOffsets)). lia.
Qed.

(** ** File names of a generation *)

Lemma bytes_of_append s1 s2 :
  list_ascii_of_string (s1 +:+ s2)
  = list_ascii_of_string s1 ++ list_ascii_of_string s2.
Proof. induction s1 as [|a s1 IH]; simpl; [done|]. by rewrite IH. Qed.

Lemma log_name_not_hint now : glob_match "data_" ".hint" (log_name now) = false.
Proof.
  unfold glob_match. replace (has_suffix ".hint" (log_name now)) with false.
  { by rewrite andb_false_r. }
  symmetry. unfold has_suffix. apply bool_decide_eq_false. intros [k Hk].
  unfold log_name in Hk. rewrite !bytes_of_append in Hk.
  assert (H' : (list_ascii_of_string "data_" ++ list_ascii_of_string (pretty now)
                ++ list_ascii_of_string ".lo") ++ ["g"%char]
               = (k ++ list_ascii_of_string ".hin") ++ ["t"%char]).
  { rewrite <- !app_assoc. exact Hk. }
  apply app_inj_tail in H' as [_ H']. discriminate.
Qed.

Lemma hint_name_not_log now : glob_match "data_" ".log" (hint_name now) = false.
Proof.
  unfold glob_match. replace (has_suffix ".log" (hint_name now)) with false.
  { by rewrite andb_false_r. }
  symmetry. unfold has_suffix. apply bool_decide_eq_false. intros [k Hk].
  unfold hint_name in Hk. rewrite !bytes_of_append in Hk.
  assert (H' : (list_ascii_of_string "data_" ++ list_ascii_of_string (pretty now)
                ++ list_ascii_of_string ".hin") ++ ["t"%char]
               = (k ++ list_ascii_of_string ".lo") ++ ["g"%char]).
  { rewrite <- !app_assoc. exact Hk. }
  apply app_inj_tail in H' as [_ H']. discriminate.
Qed.

Lemma hint_name_ne_log now : hint_name now ≠ log_name now.
Proof.
  intros Heq. pose proof (f_equal list_ascii_of_string Heq) as Hk.
  unfold hint_name, log_name in Hk. rewrite !bytes_of_append in Hk.
  assert (H' : (list_ascii_of_string "data_" ++ list_ascii_of_string (pretty now)
                ++ list_ascii_of_string ".hin") ++ ["t"%char]
               = (list_ascii_of_string "data_" ++ list_ascii_of_string (pretty now)
                  ++ list_ascii_of_string ".lo") ++ ["g"%char]).
  { rewrite <- !app_assoc. exact Hk. }
  apply app_inj_tail in H' as [_ H']. discriminate.
Qed.

Lemma remove_except_lookup keep names (fs : dir) n :
  n = keep ∨ n ∉ names → remove_except keep names fs !! n = fs !! n.
Proof.
  revert fs. induction names as [|x names IH]; intros fs Hn; [done|].
  unfold remove_except in *. cbn [foldl]. rewrite IH.
  - case_decide; [|done]. apply lookup_delete_ne. intros ->.
    destruct Hn as [->|Hn]; [done|]. apply Hn. by left.
  - destruct Hn as [?|Hn]; [by left|]. right. intros ?. apply Hn. by right.
Qed.

(** ** Hint and data of a rotation *)

(** C9: after a successful rotation at time [now], the installed log
    [data_<now>.log] and the hint file [data_<now>.hint] are in the
    directory, and (the log being shorter than 2^63 bytes, as every file
    is) the hint file reads back as a list of entries such that, for
    every entry [(key, off)], the record that starts at offset [off] of
    the log is a normal record (flag 0x00) with exactly the key [key]. *)
Theorem rotation_hint_agrees_with_log (now : Z) (st st' : store) :
  rotateFile now st = (st', None) →
  is_Some (files st' !! log_name now)
  ∧ ∀ log,
      files st' !! log_name now = Some log → blen log < 2 ^ 63 →
      ∃ hint entries,
        files st' !! hint_name now = Some hint
        ∧ hint_entries hint = Some entries
        ∧ ∀ key off, (key, off) ∈ entries →
            ∃ val, record_at log off = Some (Normal key val).
Proof.
  unfold rotateFile. intros Hrot.
  destruct (touch lockName (files st) !! active) as [c|]; [|done].
  destruct (mergeFiles _ _) as [st3 [e|]] eqn:Hm; [done|].
  destruct (files st3 !! compacted) as [cc|] eqn:Hcc; [|done].
  destruct (scan_loop (S (length cc)) 0 cc ∅) as [realOffsets|] eqn:Hs; [|done].
  destruct (RebuildKeyDir _) as [fresh|]; [|done].
  injection Hrot as <-. cbn [files set_files set_keyDir].
  apply mergeFiles_inv in Hm as (latest & Hb & Hf).
  rewrite Hf, lookup_insert_eq in Hcc. injection Hcc as <-.
  pose proof (scan_compacted latest realOffsets Hb Hs) as Hp.
  set (cc := log_bytes (live_records latest)) in *.
  set (logs := newest_first (Glob "data_" ".log" _)).
  assert (Hlog : ∀ fsx hints,
            remove_except (hint_name now) (Glob "data_" ".hint" hints)
              (remove_except (log_name now) logs
                 (<[hint_name now := hint_bytes realOffsets]>
                    (<[log_name now := cc]> fsx)))
            !! log_name now = Some cc).
  { intros fsx hints. rewrite remove_except_lookup.
    - rewrite remove_except_lookup by (by left).
      rewrite lookup_insert_ne by apply hint_name_ne_log.
      apply lookup_insert_eq.
    - right. intros Hin%elem_of_Glob. destruct Hin as [_ Hin].
      by rewrite log_name_not_hint in Hin. }
  assert (Hhint : ∀ fsx hints,
            remove_except (hint_name now) (Glob "data_" ".hint" hints)
              (remove_except (log_name now) logs
                 (<[hint_name now := hint_bytes realOffsets]> fsx))
            !! hint_name now = Some (hint_bytes realOffsets)).
  { intros fsx hints. rewrite remove_except_lookup by (by left).
    rewrite remove_except_lookup; [apply lookup_insert_eq|].
    right. unfold logs, newest_first. rewrite elem_of_sort_slice.
    intros Hin%elem_of_Glob. destruct Hin as [_ Hin].
    by rewrite hint_name_not_log in Hin. }
  rewrite Hlog. split; [by eexists|].
  intros log [= <-] Hlen.
  exists (hint_bytes realOffsets), (map_to_list realOffsets). split_and!.
  - apply Hhint.
  - apply hint_entries_bytes. intros k off Hk.
    destruct (Hp k off Hk) as (Hoff & Hlk & _). split; [done|lia].
  - intros key off Hin. apply elem_of_map_to_list in Hin.
    by destruct (Hp key off Hin) as (_ & _ & Hv).
Qed.

Lemma rotation_hint_agrees_with_log_witness :
  ∃ hint entries,
    files (rotateFile 1 full_store).1 !! hint_name 1 = Some hint
    ∧ hint_entries hint = Some entries
    ∧ ∀ key off, (key, off) ∈ entries →
        ∃ val,
          record_at (record_bytes (Normal "k" (list_ascii_of_string chars100))) off
          = Some (Normal key val).
Proof.
  apply (proj2 (rotation_hint_agrees_with_log 1 full_store
                  (rotateFile 1 full_store).1 ltac:(vm_compute; reflexivity)));
    [vm_compute; reflexivity | vm_compute; reflexivity].
Defined.

(** ** The fuel of the read loops is enough *)

Lemma read_full_rest n r b r' :
  read_full n r = Some (b, r') → (length r' ≤ length r)%nat.
Proof. intros [-> _]%read_full_Some. rewrite length_app. lia. Qed.

Lemma read_u32_rest r z r' :
  read_u32 r = Some (z, r') → (length r' ≤ length r)%nat.
Proof. intros [_ ->]%read_u32_Some. lia. Qed.

Lemma read_u64_rest r z r' :
  read_u64 r = Some (z, r') → (length r' ≤ length r)%nat.
Proof.
  unfold read_u64. destruct (read_full 8 r) as [[b r1]|] eqn:Hr; [|done].
  cbn [mbind option_bind]. intros [= _ <-]. by eapply read_full_rest.
Qed.

(** With more turns than bytes left, the result of the read loop of
    merge does not depend on the number of turns allowed. *)
Lemma merge_loop_fuel fuel fuel' r latest :
  (length r < fuel)%nat → (length r < fuel')%nat →
  merge_loop fuel r latest = merge_loop fuel' r latest.
Proof.
  revert fuel' r latest.
  induction fuel as [|fuel IH]; intros fuel' r latest Hf Hf'; [lia|].
  destruct fuel' as [|fuel']; [lia|].
  destruct r as [|flag r0]; [done|]. rewrite !merge_loop_cons. simpl in Hf, Hf'.
  destruct (read_u32 r0) as [[keyLen r1]|] eqn:H1; [|done].
  cbn [mbind option_bind].
  destruct (read_u32 r1) as [[valLen r2]|] eqn:H2; [|done].
  cbn [mbind option_bind].
  destruct (read_full (Z.to_nat keyLen) r2) as [[keyBuf r3]|] eqn:H3; [|done].
  cbn [mbind option_bind]. cbv zeta.
  apply read_u32_rest in H1. apply read_u32_rest in H2.
  apply read_full_rest in H3.
  pose proof (length_drop r3 (Z.to_nat valLen)) as Hd.
  repeat case_decide; try (apply IH; lia).
  destruct (read_full (Z.to_nat valLen) r3) as [[valueBuf r4]|] eqn:H4; [|done].
  cbn [mbind option_bind]. apply read_full_rest in H4. apply IH; lia.
Qed.

(** The same for the scan of rotation. *)
Lemma scan_loop_fuel fuel fuel' off r ro :
  (length r < fuel)%nat → (length r < fuel')%nat →
  scan_loop fuel off r ro = scan_loop fuel' off r ro.
Proof.
  revert fuel' off r ro.
  induction fuel as [|fuel IH]; intros fuel' off r ro Hf Hf'; [lia|].
  destruct fuel' as [|fuel']; [lia|].
  destruct r as [|flag r0]; [done|]. rewrite !scan_loop_cons. simpl in Hf, Hf'.
  destruct (read_u32 r0) as [[keyLen r1]|] eqn:H1; [|done].
  cbn [mbind option_bind].
  destruct (read_u32 r1) as [[valLen r2]|] eqn:H2; [|done].
  cbn [mbind option_bind].
  destruct (read_full (Z.to_nat keyLen) r2) as [[keyBuf r3]|] eqn:H3; [|done].
  cbn [mbind option_bind]. cbv zeta.
  apply read_u32_rest in H1. apply read_u32_rest in H2.
  apply read_full_rest in H3.
  pose proof (length_drop r3 (Z.to_nat valLen)) as Hd.
  apply IH; lia.
Qed.

(** The same for the loop of recovery over a hint file. *)
Lemma hint_entries_loop_fuel fuel fuel' r :
  (length r < fuel)%nat → (length r < fuel')%nat →
  hint_entries_loop fuel r = hint_entries_loop fuel' r.
Proof.
  revert fuel' r. induction fuel as [|fuel IH]; intros fuel' r Hf Hf'; [lia|].
  destruct fuel' as [|fuel']; [lia|].
  destruct r as [|a r0]; [done|]. rewrite !hint_entries_loop_cons.
  destruct (read_u32 (a :: r0)) as [[keyLen r1]|] eqn:H1; [|done].
  cbn [mbind option_bind]. cbv zeta.
  destruct (read_u64 _) as [[off r3]|] eqn:H2; [|done].
  cbn [mbind option_bind].
  apply read_u32_Some in H1 as [_ H1]. apply read_u64_rest in H2.
  pose proof (length_drop r1 (Z.to_nat keyLen)) as Hd.
  rewrite (IH fuel' r3); [done| |]; lia.
Qed.

(** * Further properties of the code *)

(** ** Get and the record format *)

Lemma read_u32_lax_strict r z r' :
  read_u32 r = Some (z, r') → read_u32_lax r = (z, r').
Proof.
  unfold read_u32, read_u32_lax.
  destruct (read_full 4 r) as [[b r1]|] eqn:Hr; [|done].
  cbn [mbind option_bind]. intros [= <- <-].
  unfold read_full in Hr. case_decide; [|done]. by injection Hr as <- <-.
Qed.

Lemma read_full_lax_strict n r b r' :
  read_full n r = Some (b, r') → read_full_lax n r = b ∧ drop n r = r'.
Proof.
  unfold read_full, read_full_lax. case_decide; [|done]. intros [= <- <-].
  replace (n - length r)%nat with 0%nat by lia. by rewrite app_nil_r.
Qed.

Lemma Get_at_record (key : string) (st : store) (fo : FileOffset)
    (c : bytes) (r : record) :
  keyDir st !! key = Some fo →
  files st !! FileID fo = Some c →
  record_at c (Offset fo) = Some r →
  Get key st
  = match r with
    | Normal _ val => GetValue (string_of_list_ascii val)
    | Tombstone _ => GetDeleted
    end.
Proof.
  intros Hk Hf Hr. unfold Get. rewrite Hk, Hf.
  unfold record_at in Hr. unfold seek_start.
  destruct (Offset fo <? 0); [done|].
  destruct (drop (Z.to_nat (Offset fo)) c) as [|flag r0]; [done|].
  rewrite read_flag_cons. cbv beta iota. cbn [decode_record] in Hr.
  destruct (read_u32 r0) as [[keyLen r1]|] eqn:H1; [|done].
  cbn [mbind option_bind] in Hr.
  destruct (read_u32 r1) as [[valLen r2]|] eqn:H2; [|done].
  cbn [mbind option_bind] in Hr.
  destruct (read_full (Z.to_nat keyLen) r2) as [[kb r3]|] eqn:H3; [|done].
  cbn [mbind option_bind] in Hr.
  destruct (read_full (Z.to_nat valLen) r3) as [[vb r4]|] eqn:H4; [|done].
  cbn [mbind option_bind] in Hr.
  rewrite (read_u32_lax_strict _ _ _ H1). cbv beta iota.
  rewrite (read_u32_lax_strict _ _ _ H2). cbv beta iota. cbv zeta.
  apply read_full_lax_strict in H3 as [_ ->].
  apply read_full_lax_strict in H4 as [-> _].
  case_decide as Hn.
  - subst flag. injection Hr as <-. by rewrite decide_False.
  - case_decide as Ht; [|done]. destruct Ht as [-> _]. injection Hr as <-.
    by rewrite decide_True.
Qed.

(** [Get] reads the record at which the keydir entry points: when the
    offset stored for [key] is the start of a complete record of the
    stored file, [Get] returns the value of a normal record and reports
    Deleted for a tombstone, whatever key the record carries. *)
Theorem Get_reads_record (key : string) (st : store) (fo : FileOffset)
    (c : bytes) (r : record) :
  keyDir st !! key = Some fo →
  files st !! FileID fo = Some c →
  record_at c (Offset fo) = Some r →
  Get key st
  = match r with
    | Normal _ val => GetValue (string_of_list_ascii val)
    | Tombstone _ => GetDeleted
    end.
Proof. intros Hk Hf Hr. by eapply Get_at_record. Qed.

Lemma Get_reads_record_witness :
  Get "a" (put io_ok "a" "1" empty_store) = GetValue "1".
Proof.
  apply (Get_reads_record "a" (put io_ok "a" "1" empty_store)
           (mkFileOffset active 0) (entry_bytes ["a"%char] ["1"%char])
           (Normal "a" ["1"%char])); reflexivity.
Defined.

(** ** What a mutation leaves alone *)

Lemma decode_record_app r x rest extra :
  decode_record r = Some (x, rest) →
  decode_record (r ++ extra) = Some (x, rest ++ extra).
Proof.
  destruct r as [|flag r0]; [done|]. cbn [decode_record app].
  assert (Hfull : ∀ n s b s', read_full n s = Some (b, s') →
            read_full n (s ++ extra) = Some (b, s' ++ extra)).
  { intros n s b s' Hs. unfold read_full in *. case_decide; [|done].
    injection Hs as <- <-. rewrite decide_True by (rewrite length_app; lia).
    by rewrite take_app_le, drop_app_le by lia. }
  assert (H32 : ∀ s z s', read_u32 s = Some (z, s') →
            read_u32 (s ++ extra) = Some (z, s' ++ extra)).
  { intros s z s'. unfold read_u32.
    destruct (read_full 4 s) as [[b s1]|] eqn:Hs; [|done].
    cbn [mbind option_bind]. intros [= <- <-]. by rewrite (Hfull _ _ _ _ Hs). }
  destruct (read_u32 r0) as [[keyLen r1]|] eqn:H1; [|done].
  cbn [mbind option_bind].
  destruct (read_u32 r1) as [[valLen r2]|] eqn:H2; [|done].
  cbn [mbind option_bind].
  destruct (read_full (Z.to_nat keyLen) r2) as [[kb r3]|] eqn:H3; [|done].
  cbn [mbind option_bind].
  destruct (read_full (Z.to_nat valLen) r3) as [[vb r4]|] eqn:H4; [|done].
  cbn [mbind option_bind].
  rewrite (H32 _ _ _ H1). cbn [mbind option_bind].
  rewrite (H32 _ _ _ H2). cbn [mbind option_bind].
  rewrite (Hfull _ _ _ _ H3). cbn [mbind option_bind].
  rewrite (Hfull _ _ _ _ H4). cbn [mbind option_bind].
  repeat case_decide; by intros [= <- <-].
Qed.

Lemma record_at_app_r c extra off r :
  record_at c off = Some r → record_at (c ++ extra) off = Some r.
Proof.
  unfold record_at. destruct (off <? 0); [done|].
  destruct (decode_record (drop (Z.to_nat off) c)) as [[x rest]|] eqn:Hd; [|done].
  intros [= <-].
  assert (Z.to_nat off ≤ length c)%nat.
  { destruct (decide (Z.to_nat off ≤ length c)%nat); [done|].
    rewrite drop_ge in Hd by lia. done. }
  rewrite drop_app_le by done. by rewrite (decode_record_app _ _ _ _ Hd).
Qed.

(** What [w.Flush()] does to the directory: every file keeps its old
    content as a prefix. *)
Lemma flush_extends wf buf st name c :
  files st !! name = Some c →
  ∃ extra, files (flush wf buf st) !! name = Some (c ++ extra).
Proof.
  intros Hc.
  assert (Hins : ∀ part, ∃ extra,
            <[active := default [] (files st !! active) ++ part]> (files st) !! name
            = Some (c ++ extra)).
  { intros part. destruct (decide (name = active)) as [->|Hne].
    - rewrite lookup_insert_eq, Hc. by exists part.
    - rewrite lookup_insert_ne by done. exists []. by rewrite app_nil_r. }
  unfold flush. destruct (w_err st).
  { exists []. by rewrite app_nil_r. }
  destruct wf as [n|]; [destruct (take n buf)|]; cbn [files].
  - exists []. by rewrite app_nil_r.
  - apply Hins.
  - apply Hins.
Qed.

Lemma flush_keyDir wf buf st : keyDir (flush wf buf st) = keyDir st.
Proof.
  unfold flush. destruct (w_err st); [done|].
  destruct wf as [n|]; [by destruct (take n buf)|done].
Qed.

(** A [PUT] or a [Delete] of [key], whatever the I/O does, does not
    change what [Get] answers for another key whose keydir entry points
    at a complete record: the log is only appended to. *)
Theorem mutation_keeps_other_keys (o : io) (key val key' : string)
    (st : store) (fo : FileOffset) (c : bytes) (r : record) :
  key ≠ key' →
  keyDir st !! key' = Some fo →
  files st !! FileID fo = Some c →
  record_at c (Offset fo) = Some r →
  Get key' (put o key val st) = Get key' st
  ∧ Get key' (Delete o key st).1 = Get key' st.
Proof.
  intros Hne Hk Hf Hr. rewrite (Get_at_record key' st fo c r Hk Hf Hr).
  split.
  - unfold put, writeEntry. cbv beta iota zeta.
    destruct (flush_extends (write_fails o)
                ([] ++ entry_bytes (list_ascii_of_string key) (list_ascii_of_string val))
                (set_size (wrap64 (activeFileSize st
                   + (1 + 8 + blen (list_ascii_of_string key)
                      + blen (list_ascii_of_string val)))) st)
                (FileID fo) c Hf) as [extra He].
    eapply Get_at_record.
    + cbn [keyDir set_keyDir]. rewrite lookup_insert_ne by done.
      rewrite flush_keyDir. exact Hk.
    + cbn [files set_keyDir]. exact He.
    + by apply record_at_app_r.
  - unfold Delete. destruct (seek_fails o); cbn [fst].
    { by apply (Get_at_record key' st fo c r). }
    unfold writeTombstone. cbv beta iota zeta. cbn [fst].
    destruct (flush_extends (write_fails o)
                ([] ++ tombstone_bytes (list_ascii_of_string key))
                (set_size (wrap64 (activeFileSize st
                   + (1 + 8 + blen (list_ascii_of_string key)))) st)
                (FileID fo) c Hf) as [extra He].
    eapply Get_at_record.
    + cbn [keyDir set_keyDir]. rewrite lookup_insert_ne by done.
      rewrite flush_keyDir. exact Hk.
    + cbn [files set_keyDir]. exact He.
    + by apply record_at_app_r.
Qed.

Lemma mutation_keeps_other_keys_witness :
  Get "a" (put io_ok "b" "2" (put io_ok "a" "1" empty_store))
  = Get "a" (put io_ok "a" "1" empty_store).
Proof.
  refine (proj1 (mutation_keeps_other_keys io_ok "b" "2" "a"
            (put io_ok "a" "1" empty_store) (mkFileOffset active 0)
            (entry_bytes ["a"%char] ["1"%char]) (Normal "a" ["1"%char]) _ _ _ _));
    [discriminate | reflexivity..].
Defined.

(** ** The size counter *)

Lemma wrap64_add a b : wrap64 (wrap64 a + b) = wrap64 (a + b).
Proof.
  unfold wrap64. f_equal.
  replace ((a + 2 ^ 63) `mod` 2 ^ 64 - 2 ^ 63 + b + 2 ^ 63)
    with ((a + 2 ^ 63) `mod` 2 ^ 64 + b) by lia.
  rewrite Z.add_mod_idemp_l by lia. f_equal. lia.
Qed.

Lemma wrap64_small a : - 2 ^ 63 ≤ a < 2 ^ 63 → wrap64 a = a.
Proof. intros Ha. unfold wrap64. rewrite Z.mod_small; lia. Qed.

Lemma put_size o key val st :
  activeFileSize (put o key val st)
  = wrap64 (activeFileSize st
            + (1 + 8 + len key + len val)).
Proof.
  unfold put, writeEntry, flush. cbv beta iota zeta. cbn [w_err set_size].
  rewrite !blen_bytes_of_string.
  destruct (w_err st); [done|].
  destruct (write_fails o) as [n|]; [|done]. by destruct (take n _).
Qed.

Lemma Delete_size key st :
  activeFileSize (Delete io_ok key st).1
  = wrap64 (activeFileSize st + (1 + 8 + len key)).
Proof.
  unfold Delete, writeTombstone, flush. cbv beta iota zeta.
  cbn [seek_fails write_fails io_ok w_err set_size fst].
  rewrite !blen_bytes_of_string. by destruct (w_err st).
Qed.

Lemma tombstone_bytes_length key : blen (tombstone_bytes key) = 1 + 4 + 4 + blen key.
Proof.
  unfold blen, tombstone_bytes. rewrite !length_app. unfold put_u32.
  rewrite !be_encode_length. simpl. lia.
Qed.

Lemma synced_counted_step c0 st :
  synced st → counted st →
  synced (exec io_ok c0 st) ∧ counted (exec io_ok c0 st).
Proof.
  intros (Hw & He & c & Hc & Hp) (c' & Hc' & Hsz).
  rewrite Hc in Hc'. injection Hc' as <-.
  destruct c0 as [key val|key|key]; cbn [exec].
  - destruct (put_synced st c key val Hw He Hc Hp) as (Hf' & Hk' & Hp' & Hw' & He').
    split.
    + split_and!; [done..|]. eexists. rewrite Hf', lookup_insert_eq. eauto.
    + eexists. rewrite Hf', lookup_insert_eq. split; [done|].
      rewrite put_size, Hsz, wrap64_add. f_equal.
      unfold blen at 2. rewrite length_app, Nat2Z.inj_add.
      fold (blen c).
      fold (blen (entry_bytes (list_ascii_of_string key) (list_ascii_of_string val))).
      rewrite entry_bytes_length, !blen_bytes_of_string. lia.
  - destruct (Delete_synced st c key Hw He Hc Hp) as (Hf' & Hk' & Hp' & Hw' & He').
    split.
    + split_and!; [done..|]. eexists. rewrite Hf', lookup_insert_eq. eauto.
    + eexists. rewrite Hf', lookup_insert_eq. split; [done|].
      rewrite Delete_size, Hsz, wrap64_add. f_equal.
      unfold blen at 2. rewrite length_app, Nat2Z.inj_add.
      fold (blen c). fold (blen (tombstone_bytes (list_ascii_of_string key))).
      rewrite tombstone_bytes_length, !blen_bytes_of_string. lia.
  - split; [by split_and!; eauto | by exists c].
Qed.

(** As long as no rotation takes place (and no I/O fails), the counter
    follows the active file: on a store whose handle stands at the end of
    the active file and whose counter is the size of that file, both stay
    so through any run of commands that does not pass [maxFileSize]. *)
Theorem counter_follows_active_file (st : store) (cs : list (Z * cmd)) :
  synced st → counted st → calm cs st →
  synced (run cs st) ∧ counted (run cs st).
Proof.
  revert st. induction cs as [|[t c0] cs IH]; intros st Hs Hc Hcalm; [done|].
  destruct Hcalm as [Hle Hcalm]. unfold run. cbn [foldl].
  rewrite main_step_calm by done.
  destruct (synced_counted_step c0 st Hs Hc) as [Hs' Hc'].
  by apply IH.
Qed.

Lemma counter_follows_active_file_witness :
  counted (run [(1, PUT "a" "1"); (2, DEL "a"); (3, PUT "b" "2")] empty_store).
Proof.
  refine (proj2 (counter_follows_active_file empty_store
            [(1, PUT "a" "1"); (2, DEL "a"); (3, PUT "b" "2")] _ _ _)).
  - split_and!; [reflexivity..|]. exists []. split; reflexivity.
  - exists []. split; reflexivity.
  - vm_compute. repeat split; discriminate.
Defined.

Lemma wrap64_idem a : wrap64 (wrap64 a) = wrap64 a.
Proof.
  pose proof (wrap64_add a 0) as H. by rewrite !Z.add_0_r in H.
Qed.

Lemma compact_fold_size (l : list (string * entry)) w size :
  wrap64 size = size →
  (foldl (λ '(w, size) '(k, e),
            if tombstone e then (w, size)
            else writeEntry w size (list_ascii_of_string k) (value e))
         (w, size) l).2
  = wrap64 (size
            + blen (log_bytes (omap (λ '(k, e), if tombstone e then None
                                                else Some (Normal k (value e))) l))).
Proof.
  revert w size. induction l as [|[k e] l IH]; intros w size Hsize.
  - simpl. change (blen []) with 0. by rewrite Z.add_0_r.
  - cbn [foldl omap list_omap]. destruct (tombstone e); [by apply IH|].
    unfold writeEntry. rewrite IH by apply wrap64_idem.
    rewrite wrap64_add, log_bytes_cons. f_equal. cbn [record_bytes].
    unfold blen at 4. rewrite length_app, Nat2Z.inj_add.
    fold (blen (entry_bytes (list_ascii_of_string k) (value e))).
    rewrite entry_bytes_length. unfold blen. lia.
Qed.

Lemma compact_size latest size :
  wrap64 size = size →
  (compact latest size).2 = wrap64 (size + blen (log_bytes (live_records latest))).
Proof. intros. unfold compact, live_records. by apply compact_fold_size. Qed.

Lemma mergeFiles_success paths st st' :
  mergeFiles paths st = (st', None) →
  ∃ latest,
    merge_files_loop (files st) (newest_first paths) ∅ = Some latest
    ∧ bounded latest
    ∧ st' = mkStore (<[compacted := log_bytes (live_records latest)]> (files st))
                    (f_pos st) (w_on_f st) (w_err st) (keyDir st)
                    (compact latest (activeFileSize st)).2.
Proof.
  unfold mergeFiles.
  destruct (merge_files_loop _ _ ∅) as [latest|] eqn:Hl; [|done].
  pose proof (compact_bytes latest (activeFileSize st)) as Hc.
  destruct (compact latest (activeFileSize st)) as [w size] eqn:Hcomp.
  simpl in Hc. subst w.
  intros [= <-]. exists latest. split_and!; [done| |by rewrite Hcomp].
  eapply merge_files_loop_bounded; [done|]. intros k e Hk.
  by rewrite lookup_empty in Hk.
Qed.

(** What a successful rotation amounts to. *)
Lemma rotateFile_success now st st' :
  rotateFile now st = (st', None) →
  ∃ c latest realOffsets fresh,
    touch lockName (files st) !! active = Some c
    ∧ merge_files_loop (rot_fs2 now (files st) c)
        (newest_first (newest_first (Glob "data_" ".log" (rot_fs2 now (files st) c))))
        ∅ = Some latest
    ∧ bounded latest
    ∧ scan_loop (S (length (log_bytes (live_records latest)))) 0
        (log_bytes (live_records latest)) ∅ = Some realOffsets
    ∧ RebuildKeyDir (rot_dir now (files st) c latest realOffsets) = Some fresh
    ∧ st' = mkStore (rot_dir now (files st) c latest realOffsets)
                    (f_pos st) false false fresh
                    (wrap64 (blen (log_bytes (live_records latest)))).
Proof.
  unfold rotateFile. intros Hrot.
  destruct (touch lockName (files st) !! active) as [c|] eqn:Hc; [|done].
  destruct (mergeFiles _ _) as [st3 [e|]] eqn:Hm; [done|].
  apply mergeFiles_success in Hm as (latest & Hl & Hb & ->).
  cbn [files activeFileSize] in *.
  rewrite lookup_insert_eq in Hrot.
  destruct (scan_loop _ 0 _ ∅) as [realOffsets|] eqn:Hs; [|done].
  destruct (RebuildKeyDir _) as [fresh|] eqn:Hr; [|done].
  injection Hrot as <-.
  exists c, latest, realOffsets, fresh. split_and!; [done..|].
  unfold set_keyDir, set_files. cbn [files f_pos w_on_f w_err keyDir activeFileSize].
  rewrite compact_size by done. done.
Qed.

(** ** The names of a generation *)

Lemma prefix_append a b : String.prefix a (a +:+ b) = true.
Proof.
  induction a as [|c a IH]; [by destruct b|].
  change (String c a +:+ b) with (String c (a +:+ b)). simpl.
  by destruct (ascii_dec c c).
Qed.

Lemma string_length_bytes s : String.length s = length (list_ascii_of_string s).
Proof. by rewrite length_bytes_of_string. Qed.

Lemma string_length_append a b :
  String.length (a +:+ b) = (String.length a + String.length b)%nat.
Proof. by rewrite !string_length_bytes, bytes_of_append, length_app. Qed.

Lemma has_suffix_append a suf : has_suffix suf (a +:+ suf) = true.
Proof.
  unfold has_suffix. apply bool_decide_eq_true. rewrite bytes_of_append.
  by apply suffix_app_r.
Qed.

Lemma TrimSuffix_append a suf : TrimSuffix (a +:+ suf) suf = a.
Proof.
  unfold TrimSuffix. rewrite has_suffix_append, string_length_append.
  replace (String.length a + String.length suf - String.length suf)%nat
    with (String.length a) by lia.
  apply prefix_correct, prefix_append.
Qed.

Lemma companion_hint_name now : companion (hint_name now) = log_name now.
Proof.
  unfold companion.
  change (hint_name now) with (("data_" +:+ pretty now) +:+ ".hint").
  by rewrite TrimSuffix_append.
Qed.

Lemma log_name_is_log now : glob_match "data_" ".log" (log_name now) = true.
Proof.
  unfold glob_match. rewrite !andb_true_iff. split_and!.
  - apply prefix_append.
  - change (log_name now) with (("data_" +:+ pretty now) +:+ ".log").
    apply has_suffix_append.
  - apply bool_decide_eq_true. unfold log_name.
    rewrite !string_length_append. simpl. lia.
Qed.

Lemma hint_name_is_hint now : glob_match "data_" ".hint" (hint_name now) = true.
Proof.
  unfold glob_match. rewrite !andb_true_iff. split_and!.
  - apply prefix_append.
  - change (hint_name now) with (("data_" +:+ pretty now) +:+ ".hint").
    apply has_suffix_append.
  - apply bool_decide_eq_true. unfold hint_name.
    rewrite !string_length_append. simpl. lia.
Qed.

Lemma not_generation_name now n :
  glob_match "data_" ".log" n = false → glob_match "data_" ".hint" n = false →
  n ≠ log_name now ∧ n ≠ hint_name now.
Proof.
  intros Hl Hh. split; intros ->.
  - by rewrite log_name_is_log in Hl.
  - by rewrite hint_name_is_hint in Hh.
Qed.

(** ** Globbing and removal *)

Lemma Glob_NoDup pre suf (fs : dir) : NoDup (Glob pre suf fs).
Proof. rewrite Glob_perm. apply NoDup_filter, NoDup_fst_map_to_list. Qed.

Lemma NoDup_only {A} (l : list A) a :
  NoDup l → (∀ x, x ∈ l ↔ x = a) → l = [a].
Proof.
  intros Hnd Hl. destruct l as [|x [|y l]].
  - exfalso. apply (elem_of_nil a). by apply Hl.
  - f_equal. apply Hl. by left.
  - exfalso. assert (x = a) as -> by (apply Hl; by left).
    assert (y = a) as -> by (apply Hl; right; by left).
    apply NoDup_cons in Hnd as [Hn _]. apply Hn. by left.
Qed.

Lemma Glob_only pre suf (fs : dir) a :
  is_Some (fs !! a) → glob_match pre suf a = true →
  (∀ x, is_Some (fs !! x) → glob_match pre suf x = true → x = a) →
  Glob pre suf fs = [a].
Proof.
  intros Ha Hm Honly. apply NoDup_only; [apply Glob_NoDup|].
  intros x. rewrite elem_of_Glob. split.
  - intros [Hx Hmx]. by apply Honly.
  - by intros ->.
Qed.

Lemma remove_except_lookup_all keep names (fs : dir) n :
  remove_except keep names fs !! n
  = if decide (n ≠ keep ∧ n ∈ names) then None else fs !! n.
Proof.
  revert fs. induction names as [|x names IH]; intros fs.
  - rewrite decide_False; [done|]. intros [_ H]. by apply elem_of_nil in H.
  - unfold remove_except in *. cbn [foldl]. rewrite IH.
    destruct (decide (n ≠ keep ∧ n ∈ names)) as [[Hk Hin]|Hno].
    + rewrite decide_True; [done|]. split; [done|by right].
    + destruct (decide (x ≠ keep)) as [Hx|Hx].
      * destruct (decide (x = n)) as [->|Hne].
        -- rewrite lookup_delete_eq, decide_True; [done|]. split; [done|by left].
        -- rewrite lookup_delete_ne by done. rewrite decide_False; [done|].
           intros [Hk Hin]. apply elem_of_cons in Hin as [->|Hin]; [done|].
           by apply Hno.
      * apply dec_stable in Hx. subst x. rewrite decide_False; [done|].
        intros [Hk Hin]. apply elem_of_cons in Hin as [->|Hin]; [done|].
        by apply Hno.
Qed.

(** ** The directory after a rotation *)

Lemma rot_dir_lookup now fs c latest ro n :
  rot_dir now fs c latest ro !! n
  = if decide (n = hint_name now) then Some (hint_bytes ro)
    else if decide (n = log_name now) then Some (log_bytes (live_records latest))
    else if glob_match "data_" ".log" n || glob_match "data_" ".hint" n then None
    else if decide (n = compacted) then None
    else rot_fs2 now fs c !! n.
Proof.
  unfold rot_dir. cbv zeta.
  set (fs2 := rot_fs2 now fs c). set (cc := log_bytes (live_records latest)).
  set (logs := newest_first (Glob "data_" ".log" fs2)).
  set (fs5 := <[hint_name now := hint_bytes ro]>
                (<[log_name now := cc]> (delete compacted (<[compacted := cc]> fs2)))).
  set (fs6 := remove_except (log_name now) logs fs5).
  assert (Hlogs : ∀ x, x ∈ logs
            ↔ is_Some (fs2 !! x) ∧ glob_match "data_" ".log" x = true).
  { intros x. unfold logs, newest_first. rewrite elem_of_sort_slice.
    apply elem_of_Glob. }
  assert (H5 : ∀ x, x ≠ hint_name now → x ≠ log_name now →
            fs5 !! x = if decide (x = compacted) then None else fs2 !! x).
  { intros x Hh Hl. unfold fs5. rewrite !lookup_insert_ne by done.
    destruct (decide (x = compacted)) as [->|Hc].
    - apply lookup_delete_eq.
    - by rewrite lookup_delete_ne, lookup_insert_ne. }
  assert (H6 : ∀ x, fs6 !! x
            = if decide (x ≠ log_name now ∧ x ∈ logs) then None else fs5 !! x).
  { intros x. apply remove_except_lookup_all. }
  rewrite remove_except_lookup_all.
  destruct (decide (n = hint_name now)) as [->|Hnh].
  { rewrite decide_False by (by intros [? _]). rewrite H6, decide_False.
    - unfold fs5. apply lookup_insert_eq.
    - intros [_ Hin]. apply Hlogs in Hin as [_ Hm].
      by rewrite hint_name_not_log in Hm. }
  destruct (decide (n = log_name now)) as [->|Hnl].
  { rewrite decide_False.
    - rewrite H6, decide_False by (by intros [? _]). unfold fs5.
      rewrite lookup_insert_ne by done. apply lookup_insert_eq.
    - intros [_ Hin]. apply elem_of_Glob in Hin as [_ Hm].
      by rewrite log_name_not_hint in Hm. }
  destruct (glob_match "data_" ".log" n) eqn:Hml; cbn [orb].
  { destruct (decide (n ≠ hint_name now ∧ n ∈ Glob "data_" ".hint" fs6)); [done|].
    rewrite H6. destruct (decide (n ≠ log_name now ∧ n ∈ logs)) as [|Hno]; [done|].
    rewrite H5 by done. rewrite decide_False by (by intros ->).
    destruct (fs2 !! n) eqn:Hn; [|done]. exfalso. apply Hno. split; [done|].
    apply Hlogs. eauto. }
  destruct (glob_match "data_" ".hint" n) eqn:Hmh.
  { destruct (decide (n ≠ hint_name now ∧ n ∈ Glob "data_" ".hint" fs6))
      as [|Hno]; [done|].
    destruct (fs6 !! n) eqn:Hn; [|done]. exfalso. apply Hno. split; [done|].
    apply elem_of_Glob. eauto. }
  rewrite decide_False.
  - rewrite H6, decide_False; [by apply H5|].
    intros [_ Hin]. apply Hlogs in Hin as [_ Hm]. congruence.
  - intros [_ Hin]. apply elem_of_Glob in Hin as [_ Hm]. congruence.
Qed.

Lemma rot_fs2_active now fs c : rot_fs2 now fs c !! active = Some [].
Proof. unfold rot_fs2. apply lookup_insert_eq. Qed.

Lemma rot_dir_generation now fs c latest ro :
  Glob "data_" ".log" (rot_dir now fs c latest ro) = [log_name now]
  ∧ Glob "data_" ".hint" (rot_dir now fs c latest ro) = [hint_name now]
  ∧ rot_dir now fs c latest ro !! active = Some []
  ∧ rot_dir now fs c latest ro !! compacted = None.
Proof.
  split_and!.
  - apply Glob_only.
    + rewrite rot_dir_lookup, decide_False by (symmetry; apply hint_name_ne_log).
      rewrite decide_True by done. eauto.
    + apply log_name_is_log.
    + intros x [y Hx] Hm. rewrite rot_dir_lookup in Hx.
      destruct (decide (x = hint_name now)) as [->|?].
      { by rewrite hint_name_not_log in Hm. }
      destruct (decide (x = log_name now)); [done|].
      by rewrite Hm in Hx.
  - apply Glob_only.
    + rewrite rot_dir_lookup, decide_True by done. eauto.
    + apply hint_name_is_hint.
    + intros x [y Hx] Hm. rewrite rot_dir_lookup in Hx.
      destruct (decide (x = hint_name now)); [done|].
      destruct (decide (x = log_name now)) as [->|?].
      { by rewrite log_name_not_hint in Hm. }
      rewrite Hm, orb_true_r in Hx. done.
  - rewrite rot_dir_lookup.
    destruct (not_generation_name now active) as [Hl Hh]; [done..|].
    rewrite !decide_False by done. apply rot_fs2_active.
  - rewrite rot_dir_lookup.
    destruct (not_generation_name now compacted) as [Hl Hh]; [done..|].
    rewrite !decide_False by done. by rewrite decide_True.
Qed.

(** After a successful rotation exactly one closed log and one hint file
    are left, those of the rotation; the new active file is empty and the
    transient compacted file is gone. *)
Theorem rotation_leaves_one_generation (now : Z) (st st' : store) :
  rotateFile now st = (st', None) →
  Glob "data_" ".log" (files st') = [log_name now]
  ∧ Glob "data_" ".hint" (files st') = [hint_name now]
  ∧ files st' !! active = Some []
  ∧ files st' !! compacted = None.
Proof.
  intros (c & latest & ro & fresh & _ & _ & _ & _ & _ & ->)%rotateFile_success.
  cbn [files]. apply rot_dir_generation.
Qed.

Lemma rotation_leaves_one_generation_witness :
  Glob "data_" ".log" (files (rotateFile 1 full_store).1) = [log_name 1]
  ∧ Glob "data_" ".hint" (files (rotateFile 1 full_store).1) = [hint_name 1].
Proof.
  destruct (rotation_leaves_one_generation 1 full_store
              (rotateFile 1 full_store).1 ltac:(vm_compute; reflexivity))
    as (H1 & H2 & _).
  split; [exact H1 | exact H2].
Defined.

(** After a successful rotation the counter is not 0 but the size of the
    installed log, which the merge wrote through [writeEntry]; the new
    active file is empty. *)
Theorem rotation_counter_is_log_size (now : Z) (st st' : store) :
  rotateFile now st = (st', None) →
  ∃ log,
    files st' !! log_name now = Some log
    ∧ files st' !! active = Some []
    ∧ activeFileSize st' = wrap64 (blen log)
    ∧ (blen log < 2 ^ 63 → activeFileSize st' = blen log).
Proof.
  intros Hrot. apply rotateFile_success in Hrot
    as (c & latest & ro & fresh & _ & _ & _ & _ & _ & ->).
  destruct (rot_dir_generation now (files st) c latest ro) as (_ & _ & Hact & _).
  exists (log_bytes (live_records latest)). cbn [files activeFileSize] in *.
  split_and!; [|done|done|].
  - rewrite rot_dir_lookup, decide_False by (symmetry; apply hint_name_ne_log).
    by rewrite decide_True.
  - intros Hlt. apply wrap64_small. unfold blen in *. lia.
Qed.

Lemma rotation_counter_is_log_size_witness :
  ∃ log,
    files (rotateFile 1 full_store).1 !! log_name 1 = Some log
    ∧ files (rotateFile 1 full_store).1 !! active = Some []
    ∧ activeFileSize (rotateFile 1 full_store).1 = wrap64 (blen log).
Proof.
  destruct (rotation_counter_is_log_size 1 full_store
              (rotateFile 1 full_store).1 ltac:(vm_compute; reflexivity))
    as (log & H1 & H2 & H3 & _).
  exists log. split_and!; [exact H1 | exact H2 | exact H3].
Defined.

(** ** What the store answers after a rotation *)

Lemma bind_hints_list logFile (l : list (string * Z)) kd k :
  NoDup l.*1 →
  bind_hints logFile l kd !! k
  = match (list_to_map l : gmap string Z) !! k with
    | Some off => Some (mkFileOffset logFile off)
    | None => kd !! k
    end.
Proof.
  revert kd. induction l as [|[k0 o0] l IH]; intros kd Hnd.
  - simpl. by rewrite lookup_empty.
  - rewrite fmap_cons in Hnd. apply NoDup_cons in Hnd as [Hk0 Hnd].
    cbn [bind_hints foldl] in *. unfold bind_hints in IH. rewrite IH by done.
    cbn [list_to_map foldr]. destruct (decide (k0 = k)) as [->|Hne].
    + rewrite lookup_insert_eq.
      rewrite (not_elem_of_list_to_map_1 l k) by done.
      by rewrite lookup_insert_eq.
    + by rewrite !lookup_insert_ne by done.
Qed.

Lemma bind_hints_map logFile (m : gmap string Z) k :
  bind_hints logFile (map_to_list m) ∅ !! k
  = mkFileOffset logFile <$> m !! k.
Proof.
  rewrite bind_hints_list by apply NoDup_fst_map_to_list.
  rewrite list_to_map_to_list, lookup_empty. by destruct (m !! k).
Qed.

Lemma scan_loop_scanned fuel pre done rs ro :
  Forall wf_record rs → Forall is_normal rs → (length rs < fuel)%nat →
  scanned done (pre ++ log_bytes rs) ro →
  ∃ ro', scan_loop fuel (blen pre) (log_bytes rs) ro = Some ro'
         ∧ scanned (done ++ rs) (pre ++ log_bytes rs) ro'.
Proof.
  revert fuel pre done ro.
  induction rs as [|r rs IH]; intros fuel pre done ro Hwf Hn Hfuel Hp.
  - destruct fuel; [lia|]. exists ro. by rewrite app_nil_r.
  - destruct fuel as [|fuel]; [simpl in Hfuel; lia|].
    apply Forall_cons in Hwf as [Hr Hwf]. apply Forall_cons in Hn as [Hrn Hn].
    destruct r as [key val|]; [|done]. destruct Hr as [Hk Hv]. simpl in Hk.
    rewrite log_bytes_cons in *. cbn [record_bytes] in *.
    set (c := pre ++ entry_bytes (list_ascii_of_string key) val ++ log_bytes rs) in *.
    rewrite entry_bytes_app, scan_loop_cons, blen_bytes_of_string.
    rewrite read_u32_put by (unfold len in *; lia). cbn [mbind option_bind].
    rewrite read_u32_put by (unfold blen in *; lia). cbn [mbind option_bind].
    replace (Z.to_nat (len key)) with (length (list_ascii_of_string key))
      by (unfold len; rewrite Nat2Z.id; apply length_bytes_of_string).
    rewrite read_full_app. cbn [mbind option_bind]. cbv zeta.
    rewrite string_of_list_ascii_of_string, decide_True by done.
    replace (Z.to_nat (blen val)) with (length val) by (unfold blen; lia).
    rewrite drop_app_length.
    specialize (IH fuel (pre ++ entry_bytes (list_ascii_of_string key) val)
                  (done ++ [Normal key val]) (<[key := blen pre]> ro) Hwf Hn).
    replace (blen (pre ++ entry_bytes (list_ascii_of_string key) val))
      with (blen pre + 1 + 4 + 4 + len key + blen val) in IH.
    2:{ unfold blen at 3. rewrite length_app, Nat2Z.inj_add.
        fold (blen pre). fold (blen (entry_bytes (list_ascii_of_string key) val)).
        rewrite entry_bytes_length, blen_bytes_of_string. lia. }
    rewrite <- !app_assoc in IH. fold c in IH. cbn [app] in IH.
    apply IH; [simpl in Hfuel; lia|].
    destruct Hp as [Hp1 Hp2]. split.
    + intros k off Hl. destruct (decide (key = k)) as [<-|Hne].
      * rewrite lookup_insert_eq in Hl. injection Hl as <-. split.
        -- split; [unfold blen; lia|]. unfold c, blen. rewrite !length_app.
           pose proof (record_bytes_length (Normal key val)) as H9.
           cbn [record_bytes] in H9. lia.
        -- exists val. split; [apply elem_of_app; right; by left|].
           by apply (record_at_app pre (Normal key val) (log_bytes rs)).
      * rewrite lookup_insert_ne in Hl by done.
        destruct (Hp1 k off Hl) as (Hoff & v & Hin & Hrec). split; [done|].
        exists v. split; [apply elem_of_app; by left|done].
    + intros k v Hin. apply elem_of_app in Hin as [Hin|Hin].
      * destruct (decide (key = k)) as [<-|Hne].
        -- rewrite lookup_insert_eq. eauto.
        -- rewrite lookup_insert_ne by done. by eapply Hp2.
      * apply list_elem_of_singleton in Hin. injection Hin as <- <-.
        rewrite lookup_insert_eq. eauto.
Qed.

Lemma scan_compacted_scanned latest realOffsets :
  bounded latest →
  let rs := live_records latest in
  scan_loop (S (length (log_bytes rs))) 0 (log_bytes rs) ∅ = Some realOffsets →
  scanned rs (log_bytes rs) realOffsets.
Proof.
  intros Hb rs Hs.
  destruct (scan_loop_scanned (S (length (log_bytes rs))) [] [] rs ∅)
    as (ro' & Hs' & Hp).
  - by apply live_records_wf.
  - apply live_records_normal.
  - pose proof (log_bytes_length rs). lia.
  - split; [intros k off Hl; by rewrite lookup_empty in Hl|].
    intros k v Hin. by apply elem_of_nil in Hin.
  - change (blen []) with 0 in Hs'. cbn [app] in Hs', Hp.
    rewrite Hs in Hs'. by injection Hs' as <-.
Qed.

Lemma sort_slice_singleton {A} (less : A → A → bool) x :
  sort_slice less [x] = [x].
Proof. reflexivity. Qed.

Lemma RebuildKeyDir_one_hint fs h (ro : gmap string Z) :
  Glob "data_" ".hint" fs = [h] →
  fs !! h = Some (hint_bytes ro) →
  (∀ k off, ro !! k = Some off → len k < 2 ^ 32 ∧ 0 ≤ off < 2 ^ 63) →
  RebuildKeyDir fs = Some (bind_hints (companion h) (map_to_list ro) ∅).
Proof.
  intros Hg Hh Hb. unfold RebuildKeyDir, hint_order.
  rewrite Hg, sort_slice_singleton. cbn [hints_loop]. rewrite Hh.
  cbn [mbind option_bind]. rewrite hint_loop_entries.
  fold (hint_entries (hint_bytes ro)). by rewrite hint_entries_bytes.
Qed.

Lemma NoDup_rkey_value (rs : list record) k v v' :
  NoDup (rkey <$> rs) → Normal k v ∈ rs → Normal k v' ∈ rs → v = v'.
Proof.
  induction rs as [|r rs IH]; intros Hnd H1 H2.
  - by apply elem_of_nil in H1.
  - rewrite fmap_cons in Hnd. apply NoDup_cons in Hnd as [Hr Hnd].
    apply elem_of_cons in H1 as [H1|H1]; apply elem_of_cons in H2 as [H2|H2].
    + congruence.
    + subst r. destruct Hr. apply list_elem_of_fmap. by exists (Normal k v').
    + subst r. destruct Hr. apply list_elem_of_fmap. by exists (Normal k v).
    + by apply IH.
Qed.

(** After a successful rotation the installed log is a sequence of
    well-formed normal records with distinct keys, and (the log being
    shorter than 2^63 bytes) the store answers from it: every keydir
    entry names the installed log, [Get] returns the value of every
    record of the log, and reports not found for every other key. *)
Theorem rotation_serves_installed_log (now : Z) (st st' : store) :
  rotateFile now st = (st', None) →
  ∃ rs,
    files st' !! log_name now = Some (log_bytes rs)
    ∧ Forall wf_record rs ∧ Forall is_normal rs ∧ NoDup (rkey <$> rs)
    ∧ (blen (log_bytes rs) < 2 ^ 63 →
       (∀ k fo, keyDir st' !! k = Some fo → FileID fo = log_name now)
       ∧ (∀ k v, Normal k v ∈ rs →
                 Get k st' = GetValue (string_of_list_ascii v))
       ∧ (∀ k, k ∉ rkey <$> rs → Get k st' = GetNotFound)).
Proof.
  intros Hrot. apply rotateFile_success in Hrot
    as (c & latest & ro & fresh & _ & _ & Hb & Hs & Hr & ->).
  destruct (rot_dir_generation now (files st) c latest ro) as (_ & Hhints & _ & _).
  set (rs := live_records latest) in *.
  pose proof (scan_compacted_scanned latest ro Hb Hs) as [Hp1 Hp2]. fold rs in Hp1, Hp2.
  assert (Hwf : Forall wf_record rs) by (by apply live_records_wf).
  assert (Hlog : rot_dir now (files st) c latest ro !! log_name now
                 = Some (log_bytes rs)).
  { rewrite rot_dir_lookup, decide_False by (symmetry; apply hint_name_ne_log).
    by rewrite decide_True. }
  exists rs. cbn [files keyDir]. split_and!; [done|done|apply live_records_normal
    |apply live_records_NoDup|].
  intros Hlt.
  assert (Hfresh : ∀ k, fresh !! k = mkFileOffset (log_name now) <$> ro !! k).
  { intros k. rewrite <- bind_hints_map, <- companion_hint_name.
    assert (Some fresh = Some (bind_hints (companion (hint_name now))
                                 (map_to_list ro) ∅)) as [= ->]; [|done].
    rewrite <- Hr. apply RebuildKeyDir_one_hint; [done| |].
    - rewrite rot_dir_lookup. by rewrite decide_True.
    - intros k' off Hk'. destruct (Hp1 k' off Hk') as (Hoff & v & Hin & _).
      rewrite Forall_forall in Hwf. destruct (Hwf _ Hin) as [Hlk _].
      split; [done|lia]. }
  split_and!.
  - intros k fo Hk. rewrite Hfresh in Hk.
    destruct (ro !! k); [|done]. by injection Hk as <-.
  - intros k v Hin. destruct (Hp2 k v Hin) as [off Hoff].
    destruct (Hp1 k off Hoff) as (_ & v' & Hin' & Hrec).
    assert (v = v') as <-
      by (eapply NoDup_rkey_value; [apply live_records_NoDup|done..]).
    apply (Get_at_record k _ (mkFileOffset (log_name now) off)
             (log_bytes rs) (Normal k v)); [|done..].
    cbn [keyDir]. by rewrite Hfresh, Hoff.
  - intros k Hk. unfold Get. cbn [keyDir]. rewrite Hfresh.
    destruct (ro !! k) as [off|] eqn:Hoff; [|done].
    destruct (Hp1 k off Hoff) as (_ & v & Hin & _). destruct Hk.
    apply list_elem_of_fmap. by exists (Normal k v).
Qed.

Lemma rotation_serves_installed_log_witness :
  Get "k" (rotateFile 1 full_store).1 = GetValue chars100.
Proof.
  destruct (rotation_serves_installed_log 1 full_store
              (rotateFile 1 full_store).1 ltac:(vm_compute; reflexivity))
    as (rs & Hf & Hwf & _ & _ & Hget).
  assert (Hc : files (rotateFile 1 full_store).1 !! log_name 1
               = Some (record_bytes (Normal "k" (list_ascii_of_string chars100))))
    by (vm_compute; reflexivity).
  rewrite Hc in Hf. injection Hf as Hf.
  pose proof (decode_log_bytes rs Hwf) as Hd. rewrite <- Hf in Hd.
  vm_compute in Hd. injection Hd as <-.
  destruct Hget as (_ & Hv & _).
  { rewrite <- Hf. vm_compute. reflexivity. }
  apply (Hv "k" (list_ascii_of_string chars100)). by left.
Defined.

(** ** A rotation in the second of an earlier one *)

Lemma touch_lookup_ne name n (fs : dir) :
  n ≠ name → touch name fs !! n = fs !! n.
Proof.
  intros Hne. unfold touch. case_decide; [done|]. by rewrite lookup_insert_ne.
Qed.

Lemma touch_lookup name (fs : dir) : is_Some (touch name fs !! name).
Proof.
  unfold touch. case_decide; [done|]. rewrite lookup_insert_eq. eauto.
Qed.

Lemma rot_fs2_lookup now fs c n :
  rot_fs2 now fs c !! n
  = if decide (n = active) then Some []
    else if decide (n = log_name now) then Some c
    else touch lockName fs !! n.
Proof.
  unfold rot_fs2. destruct (decide (n = active)) as [->|Ha].
  { apply lookup_insert_eq. }
  rewrite lookup_insert_ne by done.
  destruct (decide (n = log_name now)) as [->|Hl].
  { apply lookup_insert_eq. }
  by rewrite lookup_insert_ne, lookup_delete_ne.
Qed.

Lemma rot_fs2_overwrites now fs c x :
  rot_fs2 now (<[log_name now := x]> fs) c = rot_fs2 now (delete (log_name now) fs) c.
Proof.
  apply map_eq. intros n. rewrite !rot_fs2_lookup.
  destruct (decide (n = active)); [done|].
  destruct (decide (n = log_name now)); [done|].
  destruct (not_generation_name now lockName) as [Hl _]; [done..|].
  destruct (decide (n = lockName)) as [->|Hn].
  - unfold touch. rewrite lookup_insert_ne, lookup_delete_ne by done.
    destruct (fs !! lockName) eqn:Hlock.
    + rewrite !decide_True by eauto.
      by rewrite lookup_insert_ne, lookup_delete_ne, Hlock by done.
    + rewrite !decide_False by (by intros [? ?]).
      by rewrite !lookup_insert_eq.
  - rewrite !touch_lookup_ne by done.
    by rewrite lookup_insert_ne, lookup_delete_ne.
Qed.

Lemma rotateFile_from_fs2 now st c :
  touch lockName (files st) !! active = Some c →
  rotateFile now st
  = let fs2 := rot_fs2 now (files st) c in
    let st2 := mkStore fs2 (f_pos st) false false (keyDir st) 0 in
    let logs := newest_first (Glob "data_" ".log" fs2) in
    match mergeFiles logs st2 with
    | (st3, Some e) => (st3, Some e)
    | (st3, None) =>
        match files st3 !! compacted with
        | None => (st3, Some ErrNotExist)
        | Some cc =>
            let fs4 := <[log_name now := cc]> (delete compacted (files st3)) in
            match scan_loop (S (length cc)) 0 cc ∅ with
            | None => (set_files fs4 st3, Some ErrCorrupt)
            | Some realOffsets =>
                let fs5 := <[hint_name now := hint_bytes realOffsets]> fs4 in
                let fs6 := remove_except (log_name now) logs fs5 in
                let fs7 :=
                  remove_except (hint_name now) (Glob "data_" ".hint" fs6) fs6 in
                match RebuildKeyDir fs7 with
                | None => (set_files fs7 st3, Some ErrCorrupt)
                | Some fresh => (set_keyDir fresh (set_files fs7 st3), None)
                end
            end
        end
    end.
Proof. intros Hc. unfold rotateFile. by rewrite Hc. Qed.

(** The rename of step 2 replaces a closed log that already bears the
    name of this second: what such a file held does not reach the merge,
    and the rotation ends as if the file had not been there. *)
Theorem rotation_overwrites_log_of_same_second (now : Z) (st : store) (x : bytes) :
  is_Some (files st !! active) →
  rotateFile now (set_files (<[log_name now := x]> (files st)) st)
  = rotateFile now (set_files (delete (log_name now) (files st)) st).
Proof.
  intros [c Hc].
  destruct (not_generation_name now active) as [Ha _]; [done..|].
  rewrite (rotateFile_from_fs2 now (set_files (<[log_name now := x]> (files st)) st) c).
  2:{ cbn [files set_files]. rewrite touch_lookup_ne by done.
      by rewrite lookup_insert_ne. }
  rewrite (rotateFile_from_fs2 now (set_files (delete (log_name now) (files st)) st) c).
  2:{ cbn [files set_files]. rewrite touch_lookup_ne by done.
      by rewrite lookup_delete_ne. }
  cbn [files set_files f_pos keyDir]. by rewrite rot_fs2_overwrites.
Qed.

Lemma rotation_overwrites_log_of_same_second_witness :
  rotateFile 1 (set_files (<[log_name 1 := record_bytes (Normal "old" [])]>
                             (files full_store)) full_store)
  = rotateFile 1 (set_files (delete (log_name 1) (files full_store)) full_store).
Proof.
  apply rotation_overwrites_log_of_same_second. vm_compute. eauto.
Defined.

(** ** Failure of the merge and of the rotation *)

Lemma merge_loop_log_tail fuel rs tail latest :
  Forall wf_record rs →
  merge_loop (length rs + fuel) (log_bytes rs ++ tail) latest
  = merge_loop fuel tail (merge_records rs latest).
Proof.
  revert latest. induction rs as [|r rs IH]; intros latest Hwf; [done|].
  apply Forall_cons in Hwf as [Hr Hwf].
  rewrite log_bytes_cons, <- app_assoc. cbn [length Nat.add].
  rewrite merge_loop_record by done. by rewrite IH.
Qed.

Lemma merge_loop_stray fuel tail latest :
  (0 < length tail < 9)%nat → merge_loop (S fuel) tail latest = None.
Proof.
  intros Hlen. destruct tail as [|flag t]; [simpl in Hlen; lia|].
  simpl in Hlen. rewrite merge_loop_cons.
  destruct (read_u32 t) as [[k r1]|] eqn:H1; [|done]. cbn [mbind option_bind].
  destruct (read_u32 r1) as [[v r2]|] eqn:H2; [|done].
  apply read_u32_Some in H1 as [_ H1]. apply read_u32_Some in H2 as [_ H2]. lia.
Qed.

Lemma merge_loop_partial_header c rs tail latest :
  c = log_bytes rs ++ tail → Forall wf_record rs → (0 < length tail < 9)%nat →
  merge_loop (S (length c)) c latest = None.
Proof.
  intros -> Hwf Hlen.
  pose proof (log_bytes_length rs) as Hl.
  replace (S (length (log_bytes rs ++ tail)))
    with (length rs + S (length (log_bytes rs ++ tail) - length rs))%nat
    by (rewrite length_app; lia).
  rewrite merge_loop_log_tail by done. by apply merge_loop_stray.
Qed.

Lemma merge_files_loop_fails fs ps p c latest :
  p ∈ ps → fs !! p = Some c →
  (∀ l, merge_loop (S (length c)) c l = None) →
  merge_files_loop fs ps latest = None.
Proof.
  revert latest. induction ps as [|h ps IH]; intros latest Hp Hc Hfail.
  - by apply elem_of_nil in Hp.
  - cbn [merge_files_loop].
    destruct (fs !! h) as [c'|] eqn:Hh; cbn [mbind option_bind]; [|done].
    destruct (merge_loop (S (length c')) c' latest) as [l1|] eqn:Hl;
      cbn [mbind option_bind]; [|done].
    apply elem_of_cons in Hp as [->|Hp]; [|by apply IH].
    rewrite Hc in Hh. injection Hh as <-. by rewrite Hfail in Hl.
Qed.

(** A data file that ends, after complete records, in 1 to 8 stray bytes
    (a partial record header) makes the merge fail, whatever the other
    files hold; the failed merge leaves the store as it was and writes no
    output file. *)
Theorem merge_fails_on_partial_header (st : store) (paths : list string)
    (p : string) (rs : list record) (tail : bytes) :
  p ∈ paths →
  files st !! p = Some (log_bytes rs ++ tail) →
  Forall wf_record rs →
  (0 < length tail < 9)%nat →
  mergeFiles paths st = (st, Some ErrCorrupt).
Proof.
  intros Hp Hc Hwf Hlen. unfold mergeFiles.
  rewrite (merge_files_loop_fails (files st) (newest_first paths) p
             (log_bytes rs ++ tail)); [done| |done|].
  - by apply elem_of_sort_slice.
  - intros l. by eapply merge_loop_partial_header.
Qed.

Lemma merge_fails_on_partial_header_witness :
  mergeFiles ["data_1.log"]
    (store_of {[ "data_1.log" := log_bytes [Normal "a" ["1"%char]] ++ ["000"%char] ]})
  = (store_of {[ "data_1.log" := log_bytes [Normal "a" ["1"%char]] ++ ["000"%char] ]},
     Some ErrCorrupt).
Proof.
  apply (merge_fails_on_partial_header _ _ "data_1.log" [Normal "a" ["1"%char]]
           ["000"%char]).
  - by left.
  - reflexivity.
  - repeat constructor; vm_compute; done.
  - simpl. lia.
Defined.

Lemma be_decode_encode_mod n z :
  be_decode (be_encode n z) = z mod 256 ^ Z.of_nat n.
Proof. unfold be_decode. by rewrite be_fold. Qed.

Lemma read_u64_put_mod z r :
  read_u64 (put_u64 z ++ r) = Some (z mod 2 ^ 64, r).
Proof.
  unfold read_u64, put_u64.
  replace 8%nat with (length (be_encode 8 z)) at 1 by apply be_encode_length.
  rewrite read_full_app. cbn -[be_decode be_encode Z.pow Z.modulo].
  by rewrite be_decode_encode_mod.
Qed.

Lemma hint_entries_loop_total fuel (l : list (string * Z)) :
  Forall (λ e, len e.1 < 2 ^ 32) l → (length l < fuel)%nat →
  is_Some (hint_entries_loop fuel (l ≫= (λ '(key, off), hint_entry_bytes key off))).
Proof.
  revert fuel. induction l as [|[k off] l IH]; intros fuel Hl Hfuel.
  - destruct fuel; [lia|]. by eexists.
  - destruct fuel as [|fuel]; [simpl in Hfuel; lia|].
    apply Forall_cons in Hl as [Hk Hl]. simpl in Hk.
    rewrite bind_cons.
    set (rest := l ≫= (λ '(key, off), hint_entry_bytes key off)) in *.
    destruct (hint_entry_bytes_cons k off) as (a & t & Hat).
    assert (Heq : hint_entry_bytes k off ++ rest = a :: (t ++ rest))
      by (by rewrite Hat).
    rewrite Heq, hint_entries_loop_cons, <- Heq.
    unfold hint_entry_bytes. rewrite <- !app_assoc.
    rewrite read_u32_put by (unfold len in *; lia).
    cbn [mbind option_bind]. cbv zeta.
    replace (Z.to_nat (len k)) with (length (list_ascii_of_string k))
      by (unfold len; rewrite Nat2Z.id; apply length_bytes_of_string).
    rewrite read_full_lax_exact, drop_app_length.
    rewrite read_u64_put_mod. cbn [mbind option_bind].
    destruct (IH fuel Hl) as [es Hes]; [simpl in Hfuel; lia|].
    rewrite Hes. cbn [mbind option_bind]. by eexists.
Qed.

Lemma RebuildKeyDir_rot_dir now fs c latest ro :
  (∀ k off, ro !! k = Some off → len k < 2 ^ 32) →
  is_Some (RebuildKeyDir (rot_dir now fs c latest ro)).
Proof.
  intros Hb. destruct (rot_dir_generation now fs c latest ro) as (_ & Hg & _).
  unfold RebuildKeyDir, hint_order. rewrite Hg, sort_slice_singleton.
  cbn [hints_loop]. rewrite rot_dir_lookup, decide_True by done.
  cbn [mbind option_bind]. rewrite hint_loop_entries.
  destruct (hint_entries_loop_total (S (length (hint_bytes ro))) (map_to_list ro))
    as [es Hes].
  - apply Forall_forall. intros [k off] Hin. apply elem_of_map_to_list in Hin.
    simpl. by eapply Hb.
  - pose proof (hint_list_length (map_to_list ro)). unfold hint_bytes. lia.
  - unfold hint_bytes at 2. rewrite Hes. cbn [mbind option_bind]. by eexists.
Qed.

(** A rotation over a damaged log, the lock being granted and the
    active file renamed and reopened. When, after the rename, a closed
    log (the one that was the active file, or an older one) ends in 1 to
    8 stray bytes after complete records, the merge fails and
    [rotateFile] returns its error at step 5: the active file has been
    retired under the name of the new log, a fresh empty [data.txt] is in
    place, the counter is 0 and the keydir is the one from before the
    rotation, so that every entry that pointed into the old active file
    now reads as an empty value. *)
Theorem failed_merge_strands_rotation (now : Z) (st : store) (c : bytes)
    (p : string) (rs : list record) (tail : bytes) :
  files st !! active = Some c →
  glob_match "data_" ".log" p = true →
  <[log_name now := c]> (files st) !! p = Some (log_bytes rs ++ tail) →
  Forall wf_record rs →
  (0 < length tail < 9)%nat →
  let st' := mkStore (rot_fs2 now (files st) c) (f_pos st) false false
                     (keyDir st) 0 in
  rotateFile now st = (st', Some ErrCorrupt)
  ∧ files st' !! log_name now = Some c
  ∧ files st' !! active = Some []
  ∧ ∀ k off, keyDir st !! k = Some (mkFileOffset active off) → 0 ≤ off →
             Get k st' = GetValue "".
Proof.
  intros Hc Hm Hp Hwf Hlen st'.
  assert (Hpa : p ≠ active) by (intros ->; vm_compute in Hm; discriminate).
  assert (Hpl : p ≠ lockName) by (intros ->; vm_compute in Hm; discriminate).
  assert (Hla : log_name now ≠ active).
  { intros Heq. pose proof (log_name_is_log now) as Hl. rewrite Heq in Hl.
    vm_compute in Hl. discriminate. }
  assert (Hact : touch lockName (files st) !! active = Some c).
  { rewrite touch_lookup_ne; [done|]. intros Heq. vm_compute in Heq. discriminate. }
  assert (Hp2 : rot_fs2 now (files st) c !! p = Some (log_bytes rs ++ tail)).
  { rewrite rot_fs2_lookup. rewrite decide_False by done.
    destruct (decide (p = log_name now)) as [->|Hne].
    - by rewrite lookup_insert_eq in Hp.
    - rewrite lookup_insert_ne in Hp by done. by rewrite touch_lookup_ne. }
  assert (Hmerge : mergeFiles (newest_first (Glob "data_" ".log"
                                 (rot_fs2 now (files st) c))) st'
                   = (st', Some ErrCorrupt)).
  { unfold mergeFiles.
    rewrite (merge_files_loop_fails (files st') _ p (log_bytes rs ++ tail)); [done| | |].
    - unfold newest_first. rewrite !elem_of_sort_slice. apply elem_of_Glob.
      split; [by eexists|done].
    - exact Hp2.
    - intros l. by eapply merge_loop_partial_header. }
  split_and!.
  - rewrite (rotateFile_from_fs2 now st c Hact). cbv zeta. fold st'.
    by rewrite Hmerge.
  - cbn [files st']. rewrite rot_fs2_lookup.
    by rewrite decide_False, decide_True.
  - apply rot_fs2_active.
  - intros k off Hk Hoff. unfold Get. cbn [keyDir st' files FileID Offset].
    rewrite Hk. cbn [FileID Offset]. rewrite rot_fs2_active.
    unfold seek_start. destruct (Z.ltb_spec off 0); [lia|]. by rewrite drop_nil.
Qed.

Lemma failed_merge_strands_rotation_witness :
  (rotateFile 1 stray_log_store).2 = Some ErrCorrupt
  ∧ Get "k" (rotateFile 1 stray_log_store).1 = GetValue "".
Proof.
  pose proof (failed_merge_strands_rotation 1 stray_log_store
                (record_bytes (Normal "k" (list_ascii_of_string chars100)))
                "data_0.log" [] ["000"%char]) as H.
  destruct H as (Hrot & _ & _ & Hget).
  - vm_compute; reflexivity.
  - vm_compute; reflexivity.
  - vm_compute; reflexivity.
  - constructor.
  - simpl. lia.
  - rewrite Hrot. split; [reflexivity|]. apply (Hget "k" 0).
    + vm_compute; reflexivity.
    + lia.
Defined.

(** ** Time stamps in file names *)

Lemma is_nat_pretty_N_char d :
  (d < 10)%N → Ascii.is_nat (pretty_N_char d) = Some (N.to_nat d).
Proof.
  intros Hd.
  assert (d = 0 ∨ d = 1 ∨ d = 2 ∨ d = 3 ∨ d = 4 ∨ d = 5 ∨ d = 6 ∨ d = 7
          ∨ d = 8 ∨ d = 9)%N as Hcases by lia.
  repeat (destruct Hcases as [->|Hcases]; [reflexivity|]). by subst.
Qed.

Lemma scan_digits_pretty_go x s tail seen :
  scan_digits (list_ascii_of_string (pretty_N_go x s) ++ tail) 0 seen
  = scan_digits (list_ascii_of_string s ++ tail) (Z.of_N x)
                (seen || bool_decide (0 < x)%N).
Proof.
  revert s seen. induction (N.lt_wf_0 x) as [x _ IH]; intros s seen.
  destruct (decide (x = 0)%N) as [->|Hx].
  { rewrite pretty_N_go_0, bool_decide_eq_false_2 by lia. by rewrite orb_false_r. }
  rewrite pretty_N_go_step by lia.
  rewrite IH by (apply N.div_lt; lia).
  cbn [list_ascii_of_string app scan_digits].
  rewrite is_nat_pretty_N_char by (apply N.mod_lt; lia).
  rewrite (bool_decide_eq_true_2 (0 < x)%N) by lia. rewrite orb_true_r.
  f_equal. pose proof (N.div_mod x 10). lia.
Qed.

Lemma pretty_N_go_head x s :
  (0 < x)%N →
  ∃ d t, is_Some (Ascii.is_nat d) ∧ pretty_N_go x s = String d t.
Proof.
  revert s. induction (N.lt_wf_0 x) as [x _ IH]; intros s Hx.
  rewrite pretty_N_go_step by done.
  destruct (decide (x `div` 10 = 0)%N) as [->|Hq].
  - rewrite pretty_N_go_0. eexists _, _. split; [|done].
    rewrite is_nat_pretty_N_char by (apply N.mod_lt; lia). eauto.
  - apply IH; [apply N.div_lt; lia|by apply N.neq_0_lt_0].
Qed.

Lemma scan_int_digit d t :
  is_Some (Ascii.is_nat d) →
  scan_int (d :: t)
  = '(n, r) ← scan_digits (d :: t) 0 false;
    if 2 ^ 63 <=? n then None else Some (n, r).
Proof.
  intros [k Hk].
  destruct d as [[] [] [] [] [] [] [] []]; try discriminate Hk; reflexivity.
Qed.

Lemma scan_int_pretty (now : Z) tail :
  0 ≤ now < 2 ^ 63 →
  scan_int (list_ascii_of_string (pretty now) ++ tail)
  = '(n, r) ← scan_digits tail now true;
    if 2 ^ 63 <=? n then None else Some (n, r).
Proof.
  intros Hnow. destruct now as [|p|p]; [reflexivity| |lia].
  change (pretty (Z.pos p)) with (pretty_N_go (N.pos p) "").
  destruct (pretty_N_go_head (N.pos p) "") as (d & t & Hd & Heq); [lia|].
  pose proof (scan_digits_pretty_go (N.pos p) "" tail false) as Hscan.
  rewrite Heq in *. cbn [list_ascii_of_string app] in *.
  rewrite scan_int_digit by done. rewrite Hscan.
  by rewrite bool_decide_eq_true_2 by lia.
Qed.

Lemma extractTimestamp_names (now : Z) :
  0 ≤ now < 2 ^ 63 →
  extractTimestamp (log_name now) = now
  ∧ extractTimestamp (hint_name now) = 0.
Proof.
  intros Hnow.
  assert (Hlit : ∀ rest, scan_lit "data_" (list_ascii_of_string "data_" ++ rest)
                         = Some rest).
  { intros rest. reflexivity. }
  split; unfold extractTimestamp.
  - unfold log_name. rewrite !bytes_of_append, Hlit. cbn [mbind option_bind].
    rewrite scan_int_pretty by done. cbn.
    destruct (Z.leb_spec (2 ^ 63) now); [lia|]. reflexivity.
  - unfold hint_name. rewrite !bytes_of_append, Hlit. cbn [mbind option_bind].
    rewrite scan_int_pretty by done. cbn.
    destruct (Z.leb_spec (2 ^ 63) now); [lia|]. reflexivity.
Qed.

(** [extractTimestamp] finds the time stamp back in the name of every
    closed log that [rotateFile] makes, and answers 0 for the name of
    every hint file that it makes. *)
Theorem extractTimestamp_of_generation (now : Z) :
  0 ≤ now < 2 ^ 63 →
  extractTimestamp (log_name now) = now
  ∧ extractTimestamp (hint_name now) = 0.
Proof. intros Hnow. by apply extractTimestamp_names. Qed.

Lemma extractTimestamp_of_generation_witness :
  extractTimestamp (log_name 1700000000) = 1700000000
  ∧ extractTimestamp (hint_name 1700000000) = 0.
Proof. apply extractTimestamp_of_generation. lia. Defined.

(** ** The order of recovery *)

Lemma sort_slice_no_less {A} (less : A → A → bool) (l : list A) :
  (∀ x y, x ∈ l → y ∈ l → less x y = false) → sort_slice less l = l.
Proof.
  intros Hno. unfold sort_slice.
  rewrite sort_fold_sorted; [by rewrite app_nil_r, rev_involutive| |done].
  induction l as [|a l IH]; constructor.
  - apply IH. intros x y Hx Hy. apply Hno; by right.
  - destruct l as [|b l]; constructor. apply Hno; [right|]; by left.
Qed.

(** When every hint file of the directory bears a name made by
    [rotateFile], the sort of [RebuildKeyDir] changes nothing: the hint
    files are read in the order of their names as strings, not of their
    time stamps. *)
Theorem recovery_reads_in_name_order (fs : dir) :
  (∀ h, h ∈ Glob "data_" ".hint" fs → ∃ n, 0 ≤ n < 2 ^ 63 ∧ h = hint_name n) →
  hint_order fs = Glob "data_" ".hint" fs
  ∧ StronglySorted String.le (hint_order fs).
Proof.
  intros Hnames.
  assert (Heq : hint_order fs = Glob "data_" ".hint" fs).
  { unfold hint_order. apply sort_slice_no_less. intros x y Hx Hy.
    destruct (Hnames x Hx) as (n & Hn & ->). destruct (Hnames y Hy) as (m & Hm & ->).
    destruct (extractTimestamp_names n Hn) as [_ ->].
    destruct (extractTimestamp_names m Hm) as [_ ->]. reflexivity. }
  split; [done|]. rewrite Heq. apply Glob_sorted.
Qed.

Lemma recovery_reads_in_name_order_witness :
  hint_order two_generations = Glob "data_" ".hint" two_generations.
Proof.
  refine (proj1 (recovery_reads_in_name_order two_generations _)).
  intros h Hh.
  assert (Hg : Glob "data_" ".hint" two_generations = ["data_10.hint"; "data_9.hint"])
    by (vm_compute; reflexivity).
  rewrite Hg in Hh.
  apply elem_of_cons in Hh as [->|Hh]; [exists 10; split; [lia|by vm_compute]|].
  apply elem_of_cons in Hh as [->|Hh]; [exists 9; split; [lia|by vm_compute]|].
  apply elem_of_nil in Hh. destruct Hh.
Defined.
